(** * Inline-completion sessions of [LlmInlineCompletionItemProvider]

    A shallow embedding of the session registry, the request throttle and the
    streaming session driver of
    [src/extension/externalAgents/node/oaiLanguageModelServer.ts]
    (class [LlmInlineCompletionItemProvider]), with the properties of the
    completion-session lifecycle stated over it.

    The provider runs on one cooperative scheduler.  A session object is
    shared between the registry [_sessions] and the continuation of the
    driver [_requestCompletion] that was started for it, and it stays
    reachable from the driver after the registry has dropped it.  The model
    therefore keeps session objects in a store indexed by allocation order
    and lets the registry map a request key to an index of that store. *)

From Stdlib Require Import ZArith.
From stdpp Require Import gmap strings list fin_maps pretty.

Local Open Scope Z_scope.

(** ** JavaScript values used by the provider *)

Module Js.

(** [if (s)] on a string: the empty string is falsy. *)
Definition truthy_string (s : string) : bool := negb (String.eqb s "").

(** [if (x)] on a [string | undefined]. *)
Definition truthy (x : option string) : bool :=
  match x with
  | Some s => truthy_string s
  | None => false
  end.

(** [a ?? b]: only [undefined] falls through to [b]. *)
Definition nullish {A} (a : option A) (b : A) : A :=
  match a with
  | Some v => v
  | None => b
  end.

(** [/\w/.test(c)] on a one-character string: [[A-Za-z0-9_]]. *)
Definition is_word_char (c : Ascii.ascii) : bool :=
  let n := Ascii.nat_of_ascii c in
  ((65 <=? n) && (n <=? 90))%nat || ((97 <=? n) && (n <=? 122))%nat
  || ((48 <=? n) && (n <=? 57))%nat || (n =? 95)%nat.

End Js.

(** ** Data model *)

Record Position := mkPosition { line : nat; character : nat }.

Record Range := mkRange { range_start : Position; range_end : Position }.

Record TextDocument := mkTextDocument {
  uri : string;
  version : Z;
  languageId : string;
  lines : list string
}.

Record InlineCompletionContext := mkContext {
  ctx_requestUuid : option string;
  ctx_userPrompt : option string
}.

Record InlineCompletionItem := mkItem {
  insertText : string;
  item_range : Range;
  correlationId : option string
}.

Record InlineCompletionList := mkList {
  items : list InlineCompletionItem;
  enableForwardStability : bool
}.

(** The value of the setting [ConfigKey.Shared.Enable]:
    [Record<string, boolean | undefined> | undefined]. *)
Definition EnableConfig : Type := option (gmap string (option bool)).

(** [ChatFetchResponseType] as the driver distinguishes it: success with the
    final value, cancellation, and every other type with its [reason]. *)
Inductive ChatResponse :=
| Success (value : string)
| Canceled
| Failed (reason : string).

(** *** The cancellation handle

    Modelled from the spec: [CancellationTokenSource]
    ([util/vs/base/common/cancellation], not among the sources) is "an
    explicit cancellation handle type supporting cancel(), isCancelled(),
    and hierarchical linkage (a child handle cancels when its parent does)".
    The handle records the host token it was constructed from, the flag read
    by [token.isCancellationRequested], and how many times [dispose()] has
    been invoked on it. *)
Record CancellationTokenSource := mkCts {
  parentToken : nat;
  isCancellationRequested : bool;
  disposeCalls : nat
}.

Definition cts_new (token : nat) : CancellationTokenSource :=
  {| parentToken := token; isCancellationRequested := false; disposeCalls := 0 |}.

Definition cts_cancel (c : CancellationTokenSource) : CancellationTokenSource :=
  {| parentToken := parentToken c;
     isCancellationRequested := true;
     disposeCalls := disposeCalls c |}.

Definition cts_dispose (c : CancellationTokenSource) : CancellationTokenSource :=
  {| parentToken := parentToken c;
     isCancellationRequested := isCancellationRequested c;
     disposeCalls := S (disposeCalls c) |}.

(** *** [interface CompletionSession] *)
Record CompletionSession := mkSession {
  requestUuid : string;
  documentUri : string;
  documentVersion : Z;
  position : Position;
  range : Range;
  cancellation : CancellationTokenSource;
  text : string;
  done : bool;
  error : option string
}.

Definition set_text (t : string) (x : CompletionSession) : CompletionSession :=
  {| requestUuid := requestUuid x; documentUri := documentUri x;
     documentVersion := documentVersion x; position := position x;
     range := range x; cancellation := cancellation x;
     text := t; done := done x; error := error x |}.

Definition set_done (b : bool) (x : CompletionSession) : CompletionSession :=
  {| requestUuid := requestUuid x; documentUri := documentUri x;
     documentVersion := documentVersion x; position := position x;
     range := range x; cancellation := cancellation x;
     text := text x; done := b; error := error x |}.

Definition set_error (e : option string) (x : CompletionSession) : CompletionSession :=
  {| requestUuid := requestUuid x; documentUri := documentUri x;
     documentVersion := documentVersion x; position := position x;
     range := range x; cancellation := cancellation x;
     text := text x; done := done x; error := e |}.

Definition set_cancellation (c : CancellationTokenSource) (x : CompletionSession)
  : CompletionSession :=
  {| requestUuid := requestUuid x; documentUri := documentUri x;
     documentVersion := documentVersion x; position := position x;
     range := range x; cancellation := c;
     text := text x; done := done x; error := error x |}.

(** *** The continuation of [_requestCompletion]

    The driver is an [async] function; between two of its suspension points
    it runs without interleaving.  [DriverState] is the suspension point the
    driver of a session currently sits at, [DriverExit] the path on which it
    left its [try] block. *)
Inductive DriverExit :=
| ExitTokenFired                  (* [return] after [_throttle]: the token had fired *)
| ExitSuccess                     (* response.type === Success *)
| ExitCanceled                    (* response.type === Canceled *)
| ExitFailed (reason : string)    (* any other response type *)
| ExitCaught (message : string) (tokenFired : bool).  (* the [catch] block *)

Inductive DriverState :=
| AwaitThrottleTimer (deadline : Z)  (* in [_throttle], at [raceCancellation(timeout(diff), token)] *)
| AwaitThrottleReturn                (* [_throttle] has returned, [await] not yet resumed *)
| AwaitEndpoint                      (* at [await this._endpointProvider.getChatEndpoint(...)] *)
| AwaitFetch (cumulative : string) (stopped : bool)  (* in [fetchOne] *)
| Returned (how : DriverExit).

Record Task := mkTask {
  session : CompletionSession;
  driver : DriverState
}.

(** *** The provider *)
Record Provider := mkProvider {
  _sessions : gmap string nat;        (* [Map<string, CompletionSession>], by reference *)
  store : list Task;                  (* the session objects, by allocation order *)
  _lastRequestTimestamp : Z;
  didChangeTriggers : nat;            (* calls of [_scheduleDidChange] *)
  tokenListeners : list (nat * string); (* [token.onCancellationRequested(() => _clearSession(key, true))] *)
  dispatches : list (nat * Z)         (* remote requests issued: session and time *)
}.

Definition MIN_REQUEST_INTERVAL : Z := 75.

(** A freshly constructed provider. *)
Definition new_provider : Provider :=
  {| _sessions := ∅; store := []; _lastRequestTimestamp := 0;
     didChangeTriggers := 0; tokenListeners := []; dispatches := [] |}.

Definition set_sessions (m : gmap string nat) (s : Provider) : Provider :=
  {| _sessions := m; store := store s;
     _lastRequestTimestamp := _lastRequestTimestamp s;
     didChangeTriggers := didChangeTriggers s;
     tokenListeners := tokenListeners s; dispatches := dispatches s |}.

Definition set_store (h : list Task) (s : Provider) : Provider :=
  {| _sessions := _sessions s; store := h;
     _lastRequestTimestamp := _lastRequestTimestamp s;
     didChangeTriggers := didChangeTriggers s;
     tokenListeners := tokenListeners s; dispatches := dispatches s |}.

Definition set_lastRequestTimestamp (t : Z) (s : Provider) : Provider :=
  {| _sessions := _sessions s; store := store s;
     _lastRequestTimestamp := t;
     didChangeTriggers := didChangeTriggers s;
     tokenListeners := tokenListeners s; dispatches := dispatches s |}.

Definition set_tokenListeners (l : list (nat * string)) (s : Provider) : Provider :=
  {| _sessions := _sessions s; store := store s;
     _lastRequestTimestamp := _lastRequestTimestamp s;
     didChangeTriggers := didChangeTriggers s;
     tokenListeners := l; dispatches := dispatches s |}.

Definition set_dispatches (l : list (nat * Z)) (s : Provider) : Provider :=
  {| _sessions := _sessions s; store := store s;
     _lastRequestTimestamp := _lastRequestTimestamp s;
     didChangeTriggers := didChangeTriggers s;
     tokenListeners := tokenListeners s; dispatches := l |}.

(** Update of the session object behind a reference, and of the suspension
    point of its driver. *)
Definition on_session (f : CompletionSession → CompletionSession) (t : Task) : Task :=
  {| session := f (session t); driver := driver t |}.

Definition on_cancellation (f : CancellationTokenSource → CancellationTokenSource)
    (t : Task) : Task :=
  on_session (λ x, set_cancellation (f (cancellation x)) x) t.

Definition set_driver (d : DriverState) (t : Task) : Task :=
  {| session := session t; driver := d |}.

Definition token_fired (t : Task) : bool :=
  isCancellationRequested (cancellation (session t)).

(** ** Operations of the provider *)

(** [_scheduleDidChange]: one more trigger of the update delayer. *)
Definition _scheduleDidChange (s : Provider) : Provider :=
  {| _sessions := _sessions s; store := store s;
     _lastRequestTimestamp := _lastRequestTimestamp s;
     didChangeTriggers := S (didChangeTriggers s);
     tokenListeners := tokenListeners s; dispatches := dispatches s |}.

(** What [_clearSession] does to the handle of the session it removes:
    [cancel()] when asked to and the token has not fired, then [dispose()]. *)
Definition release (cancel : bool) (c : CancellationTokenSource) : CancellationTokenSource :=
  cts_dispose (if cancel && negb (isCancellationRequested c) then cts_cancel c else c).

(** [_clearSession(requestUuid, cancel)]. *)
Definition _clearSession (requestUuid : string) (cancel : bool) (s : Provider) : Provider :=
  match _sessions s !! requestUuid with
  | None => s
  | Some sid =>
    _scheduleDidChange
      (set_sessions (delete requestUuid (_sessions s))
         (set_store (alter (on_cancellation (release cancel)) sid (store s)) s))
  end.

(** [handleEndOfLifetime(completionItem)]. *)
Definition handleEndOfLifetime (completionItem : InlineCompletionItem) (s : Provider)
  : Provider :=
  match correlationId completionItem with
  | Some id => if Js.truthy_string id then _clearSession id false s else s
  | None => s
  end.

(** [handleListEndOfLifetime(list)]: [list.items[0]?.correlationId]. *)
Definition handleListEndOfLifetime (list : InlineCompletionList) (s : Provider)
  : Provider :=
  match head (items list) ≫= correlationId with
  | Some id => if Js.truthy_string id then _clearSession id false s else s
  | None => s
  end.

(** [_isLanguageEnabled(document)]; the configured value is an argument. *)
Definition _isLanguageEnabled (enabledLanguages : EnableConfig) (document : TextDocument)
  : bool :=
  match enabledLanguages with
  | None => true
  | Some entries =>
    let map :=
      match entries !! "*"%string with
      | Some _ => entries
      | None => <["*"%string := Some true]> entries
      end in
    Js.nullish (mjoin (map !! languageId document))
      (Js.nullish (mjoin (map !! "*"%string)) true)
  end.

(** [_isAtMidWord(document, position)].  [document.lineAt] raises on a line
    the document does not have: the result is [None] then. *)
Definition _isAtMidWord (document : TextDocument) (position : Position) : option bool :=
  match lines document !! line position with
  | None => None
  | Some l =>
    if (String.length l <=? character position)%nat then Some false
    else
      match String.get (character position) l with
      | Some nextChar => Some (Js.is_word_char nextChar)
      | None => Some false
      end
  end.

(** The request key: [context.requestUuid ?? `${uri}#${version}#${line}:${character}`]. *)
Definition requestKeyOf (document : TextDocument) (position : Position)
    (context : InlineCompletionContext) : string :=
  Js.nullish (ctx_requestUuid context)
    (uri document +:+ "#" +:+ pretty (version document) +:+ "#"
       +:+ pretty (line position) +:+ ":" +:+ pretty (character position)).

(** *** The request throttle

    [_throttle(token)] has one suspension point.  [_throttle_enter] is the
    code before it and tells whether the call suspends; [_throttle_leave] is
    the code after it. *)
Inductive ThrottleEntry :=
| ThrottlePass
| ThrottleWait (diff : Z).

Definition _throttle_enter (now : Z) (s : Provider) : ThrottleEntry :=
  let diff := MIN_REQUEST_INTERVAL - (now - _lastRequestTimestamp s) in
  if 0 <? diff then ThrottleWait diff else ThrottlePass.

Definition _throttle_leave (now : Z) (s : Provider) : Provider :=
  set_lastRequestTimestamp now s.

(** Modelled from the spec: [raceCancellation(timeout(diff), token)]
    ([util/vs/base/common/async], not among the sources) "suspends for wait
    or until cancellationToken fires, whichever is first"; either way the
    awaited promise is fulfilled and [_throttle] goes on. *)
Definition raceCancellation_settled (now deadline : Z) (fired : bool) : bool :=
  (deadline <=? now) || fired.

(** *** The streaming session driver [_requestCompletion]

    The reference [sid] stands for the [session] argument of the driver. *)

(** The code up to the first suspension: the call of [_throttle]. *)
Definition _requestCompletion_start (now : Z) (s : Provider) : DriverState * Provider :=
  match _throttle_enter now s with
  | ThrottleWait diff => (AwaitThrottleTimer (now + diff), s)
  | ThrottlePass => (AwaitThrottleReturn, _throttle_leave now s)
  end.

(** The [finally] block. *)
Definition driver_finally (sid : nat) (how : DriverExit) (s : Provider) : Provider :=
  match store s !! sid with
  | None => s
  | Some t =>
    let s' :=
      set_store (<[sid := set_driver (Returned how) (on_cancellation cts_dispose t)]> (store s)) s in
    if Js.truthy (error (session t)) then _scheduleDidChange s' else s'
  end.

(** The awaited race inside [_throttle] is settled: the rest of [_throttle]. *)
Definition driver_throttle_settled (now : Z) (sid : nat) (s : Provider) : option Provider :=
  match store s !! sid with
  | Some t =>
    match driver t with
    | AwaitThrottleTimer deadline =>
      if raceCancellation_settled now deadline (token_fired t) then
        Some (_throttle_leave now (set_store (<[sid := set_driver AwaitThrottleReturn t]> (store s)) s))
      else None
    | _ => None
    end
  | None => None
  end.

(** [await this._throttle(...)] resumes: the cancellation check, then
    [_extractContext] and the call of [getChatEndpoint], on whose result the
    driver waits. *)
Definition driver_resumed (now : Z) (sid : nat) (s : Provider) : option Provider :=
  match store s !! sid with
  | Some t =>
    match driver t with
    | AwaitThrottleReturn =>
      if token_fired t then Some (driver_finally sid ExitTokenFired s)
      else Some (set_store (<[sid := set_driver AwaitEndpoint t]> (store s)) s)
    | _ => None
    end
  | None => None
  end.

(** [getChatEndpoint] has resolved: the messages and options are built and
    [fetchOne] is called, whether or not the token has fired meanwhile.
    This call is the remote request; it is recorded with its time. *)
Definition driver_endpoint_resolved (now : Z) (sid : nat) (s : Provider) : option Provider :=
  match store s !! sid with
  | Some t =>
    match driver t with
    | AwaitEndpoint =>
      Some (set_dispatches (dispatches s ++ [(sid, now)])
              (set_store (<[sid := set_driver (AwaitFetch "" false) t]> (store s)) s))
    | _ => None
    end
  | None => None
  end.

(** [finishedCb(text, _index, delta)].  Modelled from the spec: the remote
    transport ([IChatMLFetcher.fetchOne], not among the sources) invokes "a
    per-delta callback receiving cumulative text"; [cumulative] is the text
    it has produced so far, and once the callback has answered with a number
    it is not invoked again. *)
Definition finishedCb (sid : nat) (deltaText : string) (s : Provider) : option Provider :=
  match store s !! sid with
  | Some t =>
    match driver t with
    | AwaitFetch cumulative false =>
      let text := cumulative +:+ deltaText in
      if token_fired t then
        Some (set_store (<[sid := set_driver (AwaitFetch text true) t]> (store s)) s)
      else if Js.truthy_string deltaText then
        Some (_scheduleDidChange
                (set_store (<[sid := set_driver (AwaitFetch text false)
                                       (on_session (set_text text) t)]> (store s)) s))
      else
        Some (set_store (<[sid := set_driver (AwaitFetch text false) t]> (store s)) s)
    | _ => None
    end
  | None => None
  end.

(** [fetchOne] resolves with [response]. *)
Definition driver_resolved (sid : nat) (response : ChatResponse) (s : Provider)
  : option Provider :=
  match store s !! sid with
  | Some t =>
    match driver t with
    | AwaitFetch _ _ =>
      match response with
      | Success value =>
        let s1 :=
          if Js.truthy_string (text (session t)) then s
          else _scheduleDidChange
                 (set_store (<[sid := on_session (set_text value) t]> (store s)) s) in
        let s2 := set_store (alter (on_session (set_done true)) sid (store s1)) s1 in
        Some (driver_finally sid ExitSuccess s2)
      | Canceled =>
        Some (driver_finally sid ExitCanceled
                (set_store (<[sid := on_session (set_error (Some "cancelled"%string)) t]>
                              (store s)) s))
      | Failed reason =>
        Some (driver_finally sid (ExitFailed reason)
                (set_store (<[sid := on_session (set_error (Some reason)) t]> (store s)) s))
      end
    | _ => None
    end
  | None => None
  end.

(** An exception reaches the [catch] block with message [message]: raised
    by [_extractContext] or [getChatEndpoint] before the remote request, or
    by [fetchOne]. *)
Definition driver_caught (sid : nat) (message : string) (s : Provider) : option Provider :=
  match store s !! sid with
  | Some t =>
    match driver t with
    | AwaitEndpoint | AwaitFetch _ _ =>
      if token_fired t then Some (driver_finally sid (ExitCaught message true) s)
      else
        Some (driver_finally sid (ExitCaught message false)
                (set_store (<[sid := on_session (set_error (Some message)) t]> (store s)) s))
    | _ => None
    end
  | None => None
  end.

(** *** The polling surface [provideInlineCompletionItems] *)

Inductive Outcome :=
| Raised                                         (* the promise is rejected *)
| Result (list : option InlineCompletionList).   (* [undefined] is [None] *)

(** The session behind a key.  A reference of the registry always denotes an
    object of the store. *)
Definition session_of (requestKey : string) (s : Provider) : option Task :=
  _sessions s !! requestKey ≫= λ sid, store s !! sid.

(** The list returned for a session with text: one item carrying the text,
    the range and the key as [correlationId]. *)
Definition list_of (x : CompletionSession) : InlineCompletionList :=
  {| items := [ {| insertText := text x; item_range := range x;
                   correlationId := Some (requestUuid x) |} ];
     enableForwardStability := true |}.

(** The object literal assigned to [session] in [if (!session) { ... }]. *)
Definition fresh_session (document : TextDocument) (position : Position)
    (requestKey : string) (token : nat) : CompletionSession :=
  {| requestUuid := requestKey;
     documentUri := uri document;
     documentVersion := version document;
     position := position;
     range := mkRange position position;
     cancellation := cts_new token;
     text := "";
     done := false;
     error := None |}.

(** The body of [if (!session) { ... }]: register the session, attach the
    listener to the host token, start the driver and do not wait for it. *)
Definition create_session (now : Z) (document : TextDocument) (position : Position)
    (requestKey : string) (token : nat) (s : Provider) : Provider :=
  let sid := length (store s) in
  let s1 := set_sessions (<[requestKey := sid]> (_sessions s)) s in
  let s2 := set_tokenListeners (tokenListeners s1 ++ [(token, requestKey)]) s1 in
  let '(d, s3) := _requestCompletion_start now s2 in
  set_store (store s3 ++ [mkTask (fresh_session document position requestKey token) d]) s3.

Definition provideInlineCompletionItems (now : Z) (enabledLanguages : EnableConfig)
    (document : TextDocument) (position : Position) (context : InlineCompletionContext)
    (token : nat) (s : Provider) : Outcome * Provider :=
  if negb (_isLanguageEnabled enabledLanguages document) then (Result None, s)
  else
    match _isAtMidWord document position with
    | None => (Raised, s)
    | Some true => (Result None, s)
    | Some false =>
      let requestKey := requestKeyOf document position context in
      let '(found, s) :=
        match session_of requestKey s with
        | Some t =>
          if negb (documentVersion (session t) =? version document)
          then (None, _clearSession (requestUuid (session t)) true s)
          else (Some t, s)
        | None => (None, s)
        end in
      match found with
      | None =>
        (Result None, create_session now document position requestKey token s)
      | Some t =>
        if Js.truthy (error (session t)) then
          (Result None, _clearSession (requestUuid (session t)) true s)
        else if negb (Js.truthy_string (text (session t))) then
          (Result None, s)
        else
          (Result (Some (list_of (session t))), s)
      end
    end.

(** *** The host's cancellation token fires

    Modelled from the spec: the source of a session was constructed from the
    host token ("a child handle cancels when its parent does"), and the
    listeners attached with [token.onCancellationRequested] run in the order
    in which they were attached, each at most once. *)
Definition cancel_children (token : nat) (h : list Task) : list Task :=
  (λ t, if (parentToken (cancellation (session t)) =? token)%nat
        then on_cancellation cts_cancel t else t) <$> h.

Definition run_listeners (token : nat) (l : list (nat * string)) (s : Provider) : Provider :=
  foldl (λ acc '(tok, requestKey),
           if (tok =? token)%nat then _clearSession requestKey true acc else acc) s l.

Definition token_cancelled (token : nat) (s : Provider) : Provider :=
  let s1 := set_store (cancel_children token (store s)) s in
  let s2 := run_listeners token (tokenListeners s1) s1 in
  set_tokenListeners (filter (λ p, p.1 ≠ token) (tokenListeners s2)) s2.

(** ** The scheduler

    Everything that can happen to a provider: calls of the host, and the
    resumptions of suspended drivers.  Events that read [Date.now()] carry
    the time. *)
Inductive Event :=
| Provide (now : Z) (enabledLanguages : EnableConfig) (document : TextDocument)
    (position : Position) (context : InlineCompletionContext) (token : nat)
| TokenCancelled (token : nat)
| EndOfLifetime (completionItem : InlineCompletionItem)
| ListEndOfLifetime (list : InlineCompletionList)
| ThrottleSettled (now : Z) (sid : nat)
| DriverResumed (now : Z) (sid : nat)
| EndpointResolved (now : Z) (sid : nat)
| Delta (sid : nat) (deltaText : string)
| Resolved (sid : nat) (response : ChatResponse)
| Caught (sid : nat) (message : string).

(** One event; [None] when the event cannot happen in state [s]. *)
Definition step (e : Event) (s : Provider) : option Provider :=
  match e with
  | Provide now cfg document position context token =>
    Some (provideInlineCompletionItems now cfg document position context token s).2
  | TokenCancelled token => Some (token_cancelled token s)
  | EndOfLifetime item => Some (handleEndOfLifetime item s)
  | ListEndOfLifetime list => Some (handleListEndOfLifetime list s)
  | ThrottleSettled now sid => driver_throttle_settled now sid s
  | DriverResumed now sid => driver_resumed now sid s
  | EndpointResolved now sid => driver_endpoint_resolved now sid s
  | Delta sid deltaText => finishedCb sid deltaText s
  | Resolved sid response => driver_resolved sid response s
  | Caught sid message => driver_caught sid message s
  end.

Fixpoint run (trace : list Event) (s : Provider) : option Provider :=
  match trace with
  | [] => Some s
  | e :: rest =>
    match step e s with
    | Some s' => run rest s'
    | None => None
    end
  end.

(** The states a provider can be in. *)
Definition reachable (s : Provider) : Prop :=
  ∃ trace, run trace new_provider = Some s.

(** The time an event reads, and traces whose times do not go back. *)
Definition time_of (e : Event) : option Z :=
  match e with
  | Provide now _ _ _ _ _ | ThrottleSettled now _ | DriverResumed now _
  | EndpointResolved now _ => Some now
  | _ => None
  end.

Fixpoint chronological_from (t : Z) (trace : list Event) : bool :=
  match trace with
  | [] => true
  | e :: rest =>
    match time_of e with
    | Some now => (t <=? now) && chronological_from now rest
    | None => chronological_from t rest
    end
  end.

(** ** The prefix order on texts *)

Definition is_prefix_of (a b : string) : Prop := ∃ d, b = a +:+ d.

(** ** Invariants of the provider *)

Definition returned (t : Task) : bool :=
  match driver t with
  | Returned _ => true
  | _ => false
  end.

(** Is the object behind [sid] the one the registry holds for its key? *)
Definition registered (m : gmap string nat) (sid : nat) (t : Task) : bool :=
  bool_decide (m !! requestUuid (session t) = Some sid).

(** What the driver has written to [error] and [done] when it left on path
    [how]. *)
Definition error_of_exit (how : DriverExit) : option string :=
  match how with
  | ExitTokenFired | ExitSuccess => None
  | ExitCanceled => Some "cancelled"%string
  | ExitFailed reason => Some reason
  | ExitCaught message fired => if fired then None else Some message
  end.

Definition done_of_exit (how : DriverExit) : bool :=
  match how with
  | ExitSuccess => true
  | _ => false
  end.

(** The fields of a session against the suspension point of its driver. *)
Definition session_consistent (t : Task) : Prop :=
  match driver t with
  | AwaitThrottleTimer _ | AwaitThrottleReturn | AwaitEndpoint =>
    text (session t) = ""%string ∧ done (session t) = false ∧ error (session t) = None
  | AwaitFetch cumulative _ =>
    is_prefix_of (text (session t)) cumulative
    ∧ done (session t) = false ∧ error (session t) = None
  | Returned how =>
    error (session t) = error_of_exit how ∧ done (session t) = done_of_exit how
  end.

(** The number of [dispose()] calls a handle has received: one from the
    [finally] block of the driver once it has returned, one from
    [_clearSession] once the registry has dropped the session. *)
Definition disposals (m : gmap string nat) (sid : nat) (t : Task) : nat :=
  ((if returned t then 1 else 0) + (if registered m sid t then 0 else 1))%nat.

Record wf_parts (m : gmap string nat) (h : list Task) : Prop := mk_wf {
  wf_ref : ∀ k sid, m !! k = Some sid →
             ∃ t, h !! sid = Some t ∧ requestUuid (session t) = k;
  wf_dispose : ∀ sid t, h !! sid = Some t →
             disposeCalls (cancellation (session t)) = disposals m sid t;
  wf_consistent : ∀ sid t, h !! sid = Some t → session_consistent t
}.

Definition wf (s : Provider) : Prop := wf_parts (_sessions s) (store s).

(** How a session object may change: its identity is fixed, its text only
    grows, a fired token stays fired. *)
Record task_le (t t' : Task) : Prop := mk_task_le {
  le_uuid : requestUuid (session t) = requestUuid (session t');
  le_version : documentVersion (session t) = documentVersion (session t');
  le_text : is_prefix_of (text (session t)) (text (session t'));
  le_fired : token_fired t = true → token_fired t' = true
}.

(** How a provider may change: objects are never freed, and a reference
    that enters the registry is a fresh one. *)
Record evolves (m : gmap string nat) (h : list Task)
    (m' : gmap string nat) (h' : list Task) : Prop := mk_evolves {
  ev_store : ∀ sid t, h !! sid = Some t → ∃ t', h' !! sid = Some t' ∧ task_le t t';
  ev_fresh : ∀ k sid, m' !! k = Some sid → m !! k = Some sid ∨ (length h ≤ sid)%nat
}.


(** The driver of a session that has been started and has not got past
    [await this._throttle(...)]. *)
Definition suspended_in_throttle (d : DriverState) : Prop :=
  d = AwaitThrottleReturn ∨ ∃ deadline, d = AwaitThrottleTimer deadline.

(** One move of a driver on its session object. *)
Record task_step (t t' : Task) : Prop := mk_task_step {
  ts_le : session_consistent t → task_le t t';
  ts_uuid : requestUuid (session t') = requestUuid (session t);
  ts_count : (disposeCalls (cancellation (session t')) + (if returned t then 1 else 0)
              = disposeCalls (cancellation (session t)) + (if returned t' then 1 else 0))%nat;
  ts_consistent : session_consistent t → session_consistent t'
}.

Definition updates_task (sid : nat) (s s' : Provider) : Prop :=
  ∃ t t', store s !! sid = Some t ∧ task_step t t'
          ∧ _sessions s' = _sessions s ∧ store s' = <[sid := t']> (store s).

(** ** Observations and concrete inputs *)

(** The text a call of [provideInlineCompletionItems] hands to the host. *)
Definition shown (o : Outcome) : option string :=
  match o with
  | Result (Some l) => insertText <$> head (items l)
  | _ => None
  end.

(** The provider after a trace from the initial one. *)
Definition after (trace : list Event) : Provider :=
  default new_provider (run trace new_provider).

Module Sample.

Definition doc_v1 : TextDocument :=
  {| uri := "file:///a.ts"; version := 1; languageId := "typescript";
     lines := ["let x = "%string] |}.

Definition doc_v2 : TextDocument :=
  {| uri := "file:///a.ts"; version := 2; languageId := "typescript";
     lines := ["let xy = "%string] |}.

Definition at_end_v1 : Position := {| line := 0; character := 8 |}.
Definition at_end_v2 : Position := {| line := 0; character := 9 |}.

Definition with_key (k : string) : InlineCompletionContext :=
  {| ctx_requestUuid := Some k; ctx_userPrompt := None |}.

(** The host asks for key [k] at time [now], passing token [token]. *)
Definition ask (now : Z) (k : string) (token : nat) : Event :=
  Provide now None doc_v1 at_end_v1 (with_key k) token.

Definition poll (now : Z) (k : string) (token : nat) (s : Provider) : Outcome * Provider :=
  provideInlineCompletionItems now None doc_v1 at_end_v1 (with_key k) token s.

(** Session 0 is streaming and has received the text [ab]. *)
Definition streaming : list Event :=
  [ask 1000 "K1" 0; DriverResumed 1000 0; EndpointResolved 1000 0; Delta 0 "ab"].

Definition streaming_task : Task :=
  {| session := set_text "ab" (fresh_session doc_v1 at_end_v1 "K1" 0);
     driver := AwaitFetch "ab" false |}.

(** Session 0 has issued its remote request and has no text yet. *)
Definition dispatched : list Event :=
  [ask 1000 "K1" 0; DriverResumed 1000 0; EndpointResolved 1000 0].

Definition dispatched_task : Task :=
  {| session := fresh_session doc_v1 at_end_v1 "K1" 0;
     driver := AwaitFetch "" false |}.

(** The remote call of session 0 fails after the text [ab]. *)
Definition rate_limited : list Event :=
  streaming ++ [Resolved 0 (Failed "rate_limited")].

Definition rate_limited_task : Task :=
  {| session :=
       set_cancellation (cts_dispose (cts_new 0))
         (set_error (Some "rate_limited"%string)
            (set_text "ab" (fresh_session doc_v1 at_end_v1 "K1" 0)));
     driver := Returned (ExitFailed "rate_limited") |}.

(** The remote call of session 0 fails with an empty reason after the text
    [ab]. *)
Definition failed_without_reason : list Event :=
  streaming ++ [Resolved 0 (Failed "")].

Definition shown_item : InlineCompletionItem :=
  {| insertText := "ab"; item_range := mkRange at_end_v1 at_end_v1;
     correlationId := Some "K1"%string |}.

(** The document moves to version 2 while session 0 streams; the remote
    call then resolves as cancelled. *)
Definition superseded : list Event :=
  [ask 1000 "K1" 0; DriverResumed 1000 0; EndpointResolved 1000 0;
   Provide 1100 None doc_v2 at_end_v2 (with_key "K1") 1;
   Resolved 0 Canceled].

(** Session 1 waits in the throttle until 1075; its host token fires. *)
Definition cancelled_in_wait : list Event :=
  [ask 1000 "K1" 0; DriverResumed 1000 0; EndpointResolved 1000 0;
   ask 1010 "a" 1; TokenCancelled 1].

(** Two sessions enter the throttle during the same interval. *)
Definition burst : list Event :=
  [ask 1000 "K1" 0; DriverResumed 1000 0; EndpointResolved 1000 0;
   ask 1010 "a" 1; ask 1020 "b" 2;
   ThrottleSettled 1075 1; DriverResumed 1075 1; EndpointResolved 1075 1;
   ThrottleSettled 1075 2; DriverResumed 1075 2; EndpointResolved 1075 2].

(** The remote call of session 0 resolves as cancelled. *)
Definition resolved_cancelled : list Event :=
  [ask 1000 "K1" 0; DriverResumed 1000 0; EndpointResolved 1000 0; Resolved 0 Canceled].

Definition waiting_task : Task :=
  {| session :=
       set_cancellation (release true (cts_cancel (cts_new 1)))
         (fresh_session doc_v1 at_end_v1 "a" 1);
     driver := AwaitThrottleTimer 1075 |}.

(** Session 0 streams and has the text [ab]; its host token fires. *)
Definition cancelled_streaming : list Event := streaming ++ [TokenCancelled 0].

Definition cancelled_streaming_task : Task :=
  {| session :=
       set_cancellation (release true (cts_cancel (cts_new 0)))
         (set_text "ab" (fresh_session doc_v1 at_end_v1 "K1" 0));
     driver := AwaitFetch "ab" false |}.

(** Session 1 of [burst], in its remote call. *)
Definition burst_task : Task :=
  {| session := fresh_session doc_v1 at_end_v1 "a" 1;
     driver := AwaitFetch "" false |}.

Definition cancelled_task : Task :=
  {| session :=
       set_cancellation (cts_dispose (cts_new 0))
         (set_error (Some "cancelled"%string)
            (fresh_session doc_v1 at_end_v1 "K1" 0));
     driver := Returned ExitCanceled |}.

End Sample.

(** Are consecutive dispatch times at least [MIN_REQUEST_INTERVAL] apart? *)
Fixpoint min_spacing_holds (times : list Z) : bool :=
  match times with
  | a :: (b :: _) as rest => (MIN_REQUEST_INTERVAL <=? b - a) && min_spacing_holds rest
  | _ => true
  end.

(** ** The rest of the provider: context window and prompt options *)

Definition MAX_PREFIX_CHARS : nat := 4000.
Definition MAX_SUFFIX_CHARS : nat := 2000.

(** [s.substring(n)]: the string without its first [n] characters. *)
Fixpoint js_substring_from (n : nat) (s : string) : string :=
  match n, s with
  | O, _ => s
  | S n', String _ rest => js_substring_from n' rest
  | S _, EmptyString => EmptyString
  end.

(** [s.slice(0, n)]: the first [n] characters, all of [s] when it is shorter. *)
Fixpoint js_slice_to (n : nat) (s : string) : string :=
  match n, s with
  | S n', String c rest => String c (js_slice_to n' rest)
  | _, _ => EmptyString
  end.

(** [s.slice(-n)] for a positive [n]: the last [n] characters, all of [s]
    when it is shorter. *)
Definition js_slice_last (n : nat) (s : string) : string :=
  js_substring_from (String.length s - n) s.

(** [p.startsWith(s)]. *)
Definition startsWith (s p : string) : bool := String.prefix p s.

(** [_extractContext(document, position)].  [document.getText] belongs to
    the host and is an argument; the end of the document is computed from
    the lines as the code does. *)
Definition document_end (document : TextDocument) : Position :=
  match lines document with
  | [] => mkPosition 0 0
  | l => mkPosition (length l - 1) (String.length (default ""%string (last l)))
  end.

Definition _extractContext (getText : Range → string) (document : TextDocument)
    (position : Position) : string * string :=
  let start := mkPosition 0 0 in
  let end_ := document_end document in
  let prefixFull := getText (mkRange start position) in
  let suffixFull := getText (mkRange position end_) in
  (js_slice_last MAX_PREFIX_CHARS prefixFull, js_slice_to MAX_SUFFIX_CHARS suffixFull).

(** ** [OpenAILanguageModelServer] *)

(** The part of [IChatEndpoint] the server reads. *)
Record ChatEndpoint := mkEndpoint {
  family : string;
  maxOutputTokens : Z
}.

(** [selectEndpoint(endpoints, requestedModel)]. *)
Definition selectEndpoint (endpoints : list ChatEndpoint) (requestedModel : option string)
  : option ChatEndpoint :=
  if Js.truthy requestedModel then
    List.find (λ e, bool_decide (Some (family e) = requestedModel)) endpoints
  else head endpoints.

(** An incoming request as the server callback reads it. *)
Record HttpRequest := mkRequest {
  method : option string;
  url : option string;
  authorization : option string
}.

(** What [readRequestBody] settles with: the body, or the message of the
    error it rejects with. *)
Inductive BodyRead :=
| BodyOk (body : string)
| BodyFailed (details : string).

(** The payload written with [res.end]. *)
Inductive Payload :=
| NoPayload
| TextPayload (text : string)
| ErrorPayload (error : string) (details : option string).

(** What the callback of [createServer] does with a request: answer at
    once, or hand the body to [handleResponsesAPIRequest]. *)
Inductive ServerAction :=
| Respond (status : nat) (payload : Payload)
| HandleResponses (body : string).

Definition is_responses_url (u : option string) : bool :=
  bool_decide (u = Some "/v1/responses"%string)
  || bool_decide (u = Some "/responses"%string)
  || bool_decide (u = Some "//responses"%string).

(** The callback passed to [http.createServer]. *)
Definition serve (nonce : string) (req : HttpRequest) (read : BodyRead) : ServerAction :=
  if bool_decide (method req = Some "OPTIONS"%string) then Respond 200 NoPayload
  else if bool_decide (method req = Some "POST"%string) && is_responses_url (url req) then
    match read with
    | BodyFailed details =>
      Respond 500 (ErrorPayload "Internal server error" (Some details))
    | BodyOk body =>
      let bearerSpace := "Bearer "%string in
      let authKey :=
        match authorization req with
        | Some authHeader =>
          if startsWith authHeader bearerSpace
          then Some (js_substring_from (String.length bearerSpace) authHeader)
          else None
        | None => None
        end in
      if bool_decide (authKey ≠ Some nonce)
      then Respond 401 (ErrorPayload "Invalid authentication" None)
      else HandleResponses body
    end
  else if bool_decide (method req = Some "GET"%string)
          && bool_decide (url req = Some "/"%string)
  then Respond 200 (TextPayload "Hello from LanguageModelServer")
  else Respond 404 (ErrorPayload "Not found" None).

(** A body of the declared type [ResponseCreateParams], as far as
    [handleResponsesAPIRequest] reads it. *)
Inductive InputItem :=
| ItemText (s : string)
| ItemObject (item_type : option string) (item_role : option string).

Inductive ResponseInput :=
| InputText (s : string)
| InputItems (l : list InputItem).

Record ResponseCreateParams := mkParams {
  model : option string;
  input : option ResponseInput
}.

(** [requestBody.input?.at(-1)]: the last character of a string, the last
    element of an array, [undefined] when there is none. *)
Definition lastMessage (requestBody : ResponseCreateParams) : option InputItem :=
  match input requestBody with
  | None => None
  | Some (InputText s) =>
    match s with
    | EmptyString => None
    | _ => Some (ItemText (js_slice_last 1 s))
    end
  | Some (InputItems l) => last l
  end.

Definition isUserInitiatedMessage (requestBody : ResponseCreateParams) : bool :=
  match lastMessage requestBody with
  | Some (ItemText _) => true
  | Some (ItemObject ty role) =>
    bool_decide (ty = Some "message"%string) && bool_decide (role = Some "user"%string)
  | None => false
  end.

(** What [handleResponsesAPIRequest] answers: an error status, or the
    event stream of one endpoint. *)
Inductive ResponsesOutcome :=
| Fail (status : nat) (error : string) (details : option string)
| Stream (endpoint : ChatEndpoint) (userInitiatedRequest : bool).

(** [handleResponsesAPIRequest], up to the request it forwards.
    [parsed] is the result of [JSON.parse] ([inr] with the message when it
    throws), [available] that of [getAllChatEndpoints]. *)
Definition handleResponsesAPIRequest (parsed : ResponseCreateParams + string)
    (available : list ChatEndpoint + string) : ResponsesOutcome :=
  match parsed with
  | inr message => Fail 500 "Failed to process chat request" (Some message)
  | inl requestBody =>
    let userInitiated := isUserInitiatedMessage requestBody in
    match available with
    | inr message => Fail 500 "Failed to process chat request" (Some message)
    | inl endpoints =>
      if (length endpoints =? 0)%nat then Fail 404 "No language models available" None
      else
        match selectEndpoint endpoints (model requestBody) with
        | None => Fail 404 "No model found matching criteria" None
        | Some selectedEndpoint => Stream selectedEndpoint userInitiated
        end
    end
  end.

(** [StreamingPassThroughEndpoint.processResponseFromChatEndpoint]: the
    loop over the chunks of the upstream body.  [cancelled i] is what
    [cancellationToken?.isCancellationRequested] answers when chunk [i] has
    arrived; the result is what has been written to the response stream. *)
Fixpoint pass_through (cancelled : nat → bool) (i : nat) (chunks : list string)
    (written : list string) : list string :=
  match chunks with
  | [] => written
  | chunk :: rest =>
    if cancelled i then written
    else pass_through cancelled (S i) rest (written ++ [chunk])
  end.

(** ** Frames *)

(** Events raised by the host, as opposed to resumptions of a driver. *)
Definition is_host_event (e : Event) : bool :=
  match e with
  | Provide _ _ _ _ _ _ | TokenCancelled _ | EndOfLifetime _ | ListEndOfLifetime _ => true
  | _ => false
  end.

(** The session whose driver an event resumes. *)
Definition driver_of_event (e : Event) : option nat :=
  match e with
  | ThrottleSettled _ sid | DriverResumed _ sid | EndpointResolved _ sid
  | Delta sid _ | Resolved sid _
  | Caught sid _ => Some sid
  | _ => None
  end.

(** Has the driver issued its remote request?  [Some false]: it has not
    reached the call of [fetchOne]; [Some true]: it has called it; [None]:
    it left through the [catch] block, before or after the call. *)
Definition request_issued (t : Task) : option bool :=
  match driver t with
  | AwaitThrottleTimer _ | AwaitThrottleReturn | AwaitEndpoint => Some false
  | AwaitFetch _ _ => Some true
  | Returned ExitTokenFired => Some false
  | Returned (ExitCaught _ _) => None
  | Returned _ => Some true
  end.

(** Two versions of a session object with the same results and the same
    suspension point of the driver. *)
Definition same_results (t t' : Task) : Prop :=
  driver t' = driver t
  ∧ text (session t') = text (session t)
  ∧ done (session t') = done (session t)
  ∧ error (session t') = error (session t).

(** What a call of the host may do to the store: sessions that exist keep
    their results, sessions that appear have not issued a request. *)
Record host_frame (h h' : list Task) : Prop := mk_host_frame {
  hf_old : ∀ sid t, h !! sid = Some t → ∃ t', h' !! sid = Some t' ∧ same_results t t';
  hf_new : ∀ sid t', h !! sid = None → h' !! sid = Some t' →
           request_issued t' = Some false
}.

(** One resumption of the driver of [sid]: the driver had not returned, only
    its own session object changes, and a remote request is recorded exactly
    when the driver passes from waiting for the endpoint to the fetch. *)
Definition driver_move (sid : nat) (s s' : Provider) : Prop :=
  ∃ t0 t0', store s !! sid = Some t0 ∧ returned t0 = false
    ∧ _sessions s' = _sessions s ∧ store s' = <[sid := t0']> (store s)
    ∧ ((dispatches s' = dispatches s
        ∧ ∀ b, request_issued t0' = Some b → request_issued t0 = Some b)
       ∨ (∃ now, dispatches s' = dispatches s ++ [(sid, now)]
                 ∧ request_issued t0 = Some false
                 ∧ request_issued t0' = Some true)).

(** The remote requests on record: no session twice, none for a session
    that has not called [fetchOne], one for each session that has, and only
    for sessions of the store. *)
Definition dispatch_ledger (s : Provider) : Prop :=
  NoDup (dispatches s).*1
  ∧ (∀ sid, sid ∈ (dispatches s).*1 → is_Some (store s !! sid))
  ∧ ∀ sid t, store s !! sid = Some t →
      match request_issued t with
      | Some true => sid ∈ (dispatches s).*1
      | Some false => sid ∉ (dispatches s).*1
      | None => True
      end.
(** ** Texts *)

Lemma append_empty_r (a : string) : a +:+ "" = a.
Proof.
  induction a as [|c a IH]; [reflexivity|].
  change (String c (a +:+ "") = String c a). by rewrite IH.
Qed.

Lemma append_assoc (a b c : string) : (a +:+ b) +:+ c = a +:+ (b +:+ c).
Proof.
  induction a as [|x a IH]; [reflexivity|].
  change (String x ((a +:+ b) +:+ c) = String x (a +:+ (b +:+ c))). by rewrite IH.
Qed.

Lemma is_prefix_of_refl (a : string) : is_prefix_of a a.
Proof. exists ""%string. by rewrite append_empty_r. Qed.

Lemma is_prefix_of_trans (a b c : string) :
  is_prefix_of a b → is_prefix_of b c → is_prefix_of a c.
Proof. intros [d ->] [e ->]. exists (d +:+ e). apply append_assoc. Qed.

Lemma is_prefix_of_empty (a : string) : is_prefix_of "" a.
Proof. by exists a. Qed.

Lemma is_prefix_of_append (a b d : string) : is_prefix_of a b → is_prefix_of a (b +:+ d).
Proof. intros H. eapply is_prefix_of_trans; [exact H | by exists d]. Qed.

Lemma truthy_string_false (a : string) : Js.truthy_string a = false → a = ""%string.
Proof.
  unfold Js.truthy_string. intros H. apply negb_false_iff in H.
  by apply String.eqb_eq in H.
Qed.

(** ** Evolution of a provider *)

Lemma task_le_refl t : task_le t t.
Proof. split; auto using is_prefix_of_refl. Qed.

Lemma task_le_trans t1 t2 t3 : task_le t1 t2 → task_le t2 t3 → task_le t1 t3.
Proof.
  intros [] []. split; try congruence; eauto using is_prefix_of_trans.
Qed.

Lemma evolves_refl m h : evolves m h m h.
Proof. split; eauto using task_le_refl. Qed.

Lemma evolves_length m h m' h' : evolves m h m' h' → (length h ≤ length h')%nat.
Proof.
  intros [Hs _]. destruct (decide (length h = 0)%nat) as [->|Hne]; [lia|].
  destruct (lookup_lt_is_Some_2 h (pred (length h))) as [t Ht]; [lia|].
  destruct (Hs _ _ Ht) as (t' & Ht' & _). apply lookup_lt_Some in Ht'. lia.
Qed.

Lemma evolves_trans m1 h1 m2 h2 m3 h3 :
  evolves m1 h1 m2 h2 → evolves m2 h2 m3 h3 → evolves m1 h1 m3 h3.
Proof.
  intros H12 H23. pose proof (evolves_length _ _ _ _ H12) as Hlen.
  destruct H12 as [Hs12 Hf12], H23 as [Hs23 Hf23]. split.
  - intros sid t Ht. destruct (Hs12 _ _ Ht) as (t2 & Ht2 & Hle2).
    destruct (Hs23 _ _ Ht2) as (t3 & Ht3 & Hle3). eauto using task_le_trans.
  - intros k sid Hk. destruct (Hf23 _ _ Hk) as [Hk2|Hge]; [eauto | right; lia].
Qed.

(** *** An object of the store is updated in place *)

Lemma wf_update m h sid t t' :
  wf_parts m h → h !! sid = Some t →
  requestUuid (session t') = requestUuid (session t) →
  (disposeCalls (cancellation (session t')) + (if returned t then 1 else 0)
   = disposeCalls (cancellation (session t)) + (if returned t' then 1 else 0))%nat →
  session_consistent t' →
  wf_parts m (<[sid := t']> h).
Proof.
  intros [Href Hdisp Hcons] Ht Huuid Hcount Hc.
  pose proof (lookup_lt_Some _ _ _ Ht) as Hlt. split.
  - intros k i Hk. destruct (Href _ _ Hk) as (u & Hu & Hku).
    destruct (decide (i = sid)) as [->|Hne].
    + exists t'. rewrite list_lookup_insert_eq by done. split; congruence.
    + exists u. by rewrite list_lookup_insert_ne.
  - intros i u Hu. destruct (decide (i = sid)) as [->|Hne].
    + rewrite list_lookup_insert_eq in Hu by done. injection Hu as <-.
      specialize (Hdisp _ _ Ht). unfold disposals, registered in *.
      rewrite Huuid. lia.
    + rewrite list_lookup_insert_ne in Hu by done. eauto.
  - intros i u Hu. destruct (decide (i = sid)) as [->|Hne].
    + rewrite list_lookup_insert_eq in Hu by done. by injection Hu as <-.
    + rewrite list_lookup_insert_ne in Hu by done. eauto.
Qed.

Lemma evolves_update m h sid t t' :
  h !! sid = Some t → task_le t t' → evolves m h m (<[sid := t']> h).
Proof.
  intros Ht Hle. pose proof (lookup_lt_Some _ _ _ Ht) as Hlt. split; [|auto].
  intros i u Hu. destruct (decide (i = sid)) as [->|Hne].
  - exists t'. rewrite list_lookup_insert_eq by done. split; congruence.
  - exists u. rewrite list_lookup_insert_ne by done. eauto using task_le_refl.
Qed.

Lemma alter_as_insert (f : Task → Task) (h : list Task) sid t :
  h !! sid = Some t → alter f sid h = <[sid := f t]> h.
Proof.
  intros Ht. apply list_eq. intros i. destruct (decide (i = sid)) as [->|Hne].
  - rewrite list_lookup_alter_eq, Ht.
    by rewrite list_lookup_insert_eq by (by eapply lookup_lt_Some).
  - by rewrite list_lookup_alter_ne, list_lookup_insert_ne.
Qed.

Lemma insert_alter (f : Task → Task) (h : list Task) sid t :
  <[sid := t]> (alter f sid h) = <[sid := t]> h.
Proof.
  apply list_eq. intros i. destruct (decide (i = sid)) as [->|Hne].
  - destruct (decide (sid < length h)%nat) as [Hlt|Hge].
    + by rewrite !list_lookup_insert_eq by (by rewrite ?length_alter).
    + rewrite !list_insert_ge by (rewrite ?length_alter; lia).
      rewrite list_lookup_alter_eq. by rewrite lookup_ge_None_2 by lia.
  - by rewrite !list_lookup_insert_ne, list_lookup_alter_ne.
Qed.

(** *** [_clearSession] *)

Lemma _clearSession_unknown key cancel s :
  _sessions s !! key = None → _clearSession key cancel s = s.
Proof. unfold _clearSession. by intros ->. Qed.

Lemma _clearSession_known key cancel s sid t :
  _sessions s !! key = Some sid → store s !! sid = Some t →
  _sessions (_clearSession key cancel s) = delete key (_sessions s)
  ∧ store (_clearSession key cancel s)
    = <[sid := on_cancellation (release cancel) t]> (store s).
Proof.
  intros Hk Ht. unfold _clearSession. rewrite Hk. simpl. split; [done|].
  by rewrite (alter_as_insert _ _ _ _ Ht).
Qed.

Lemma _clearSession_removes key cancel s :
  _sessions (_clearSession key cancel s) !! key = None.
Proof.
  unfold _clearSession. destruct (_sessions s !! key) eqn:Hk; [|done].
  simpl. apply lookup_delete_eq.
Qed.

Lemma _clearSession_other key cancel s k :
  k ≠ key →
  _sessions (_clearSession key cancel s) !! k = _sessions s !! k.
Proof.
  intros Hne. unfold _clearSession. destruct (_sessions s !! key); [|done].
  simpl. by rewrite lookup_delete_ne.
Qed.

Lemma _clearSession_frame key cancel s :
  _lastRequestTimestamp (_clearSession key cancel s) = _lastRequestTimestamp s
  ∧ tokenListeners (_clearSession key cancel s) = tokenListeners s
  ∧ dispatches (_clearSession key cancel s) = dispatches s.
Proof. unfold _clearSession. by destruct (_sessions s !! key). Qed.

Lemma release_fired cancel c :
  isCancellationRequested c = true ∨ cancel = true →
  isCancellationRequested (release cancel c) = true.
Proof.
  destruct c as [p f d]. unfold release. simpl.
  destruct cancel, f; simpl; intuition congruence.
Qed.

Lemma _clearSession_wf key cancel s :
  wf s → wf (_clearSession key cancel s).
Proof.
  intros Hwf. destruct (_sessions s !! key) as [sid|] eqn:Hk;
    [|by rewrite _clearSession_unknown].
  destruct (wf_ref _ _ Hwf _ _ Hk) as (t & Ht & Huuid).
  destruct (_clearSession_known _ cancel _ _ _ Hk Ht) as [Hm Hh].
  unfold wf. rewrite Hm, Hh. destruct Hwf as [Href Hdisp Hcons].
  pose proof (lookup_lt_Some _ _ _ Ht) as Hlt. split.
  - intros k i Hi. apply lookup_delete_Some in Hi as [Hne Hi].
    destruct (Href _ _ Hi) as (u & Hu & Hku).
    destruct (decide (i = sid)) as [->|Hni]; [congruence|].
    exists u. by rewrite list_lookup_insert_ne.
  - intros i u Hu. destruct (decide (i = sid)) as [->|Hni].
    + rewrite list_lookup_insert_eq in Hu by done. injection Hu as <-.
      specialize (Hdisp _ _ Ht). unfold disposals, registered in *. simpl.
      rewrite Huuid in *. rewrite lookup_delete_eq.
      rewrite bool_decide_eq_true_2 in Hdisp by done.
      rewrite bool_decide_eq_false_2 by done.
      change (returned (on_cancellation (release cancel) t)) with (returned t).
      unfold release. simpl. destruct (cancel && _); simpl; lia.
    + rewrite list_lookup_insert_ne in Hu by done.
      rewrite (Hdisp _ _ Hu). unfold disposals, registered. do 2 f_equal.
      destruct (decide (requestUuid (session u) = key)) as [Heq|Hneq].
      * rewrite Heq, lookup_delete_eq, Hk.
        rewrite !bool_decide_eq_false_2; [done|congruence|congruence].
      * by rewrite lookup_delete_ne.
  - intros i u Hu. destruct (decide (i = sid)) as [->|Hni].
    + rewrite list_lookup_insert_eq in Hu by done. injection Hu as <-.
      exact (Hcons _ _ Ht).
    + rewrite list_lookup_insert_ne in Hu by done. eauto.
Qed.

Lemma _clearSession_evolves key cancel s :
  evolves (_sessions s) (store s)
    (_sessions (_clearSession key cancel s))
    (store (_clearSession key cancel s)).
Proof.
  unfold _clearSession. destruct (_sessions s !! key) as [sid|] eqn:Hk;
    [|apply evolves_refl].
  simpl. split.
  - intros i u Hu. destruct (decide (i = sid)) as [->|Hni].
    + exists (on_cancellation (release cancel) u).
      rewrite list_lookup_alter_eq, Hu. split; [done|].
      split; simpl; auto using is_prefix_of_refl.
      intros Hf. apply release_fired. by left.
    + exists u. rewrite list_lookup_alter_ne by done. eauto using task_le_refl.
  - intros k i Hi. apply lookup_delete_Some in Hi as [_ Hi]. by left.
Qed.

(** *** A session is created *)

Lemma create_session_parts now document position key token s :
  ∃ d, suspended_in_throttle d
  ∧ _sessions (create_session now document position key token s)
    = <[key := length (store s)]> (_sessions s)
  ∧ store (create_session now document position key token s)
    = store s ++ [mkTask (fresh_session document position key token) d]
  ∧ tokenListeners (create_session now document position key token s)
    = tokenListeners s ++ [(token, key)]
  ∧ dispatches (create_session now document position key token s) = dispatches s.
Proof.
  unfold create_session, _requestCompletion_start, _throttle_enter. simpl.
  destruct (0 <? _) eqn:E; simpl; eexists; (split; [|done]); [right|left]; eauto.
Qed.

Lemma create_session_wf now document position key token s :
  wf s → _sessions s !! key = None →
  wf (create_session now document position key token s).
Proof.
  intros [Href Hdisp Hcons] Hk.
  destruct (create_session_parts now document position key token s)
    as (d & Hd & Hm & Hh & _).
  unfold wf. rewrite Hm, Hh. split.
  - intros k i Hi. apply lookup_insert_Some in Hi as [[<- <-]|[Hne Hi]].
    + eexists. rewrite lookup_app_r, Nat.sub_diag by done. by split.
    + destruct (Href _ _ Hi) as (u & Hu & Hku). exists u.
      by rewrite lookup_app_l by (by eapply lookup_lt_Some).
  - intros i u Hu. apply lookup_app_Some in Hu as [Hu|[Hge Hu]].
    + rewrite (Hdisp _ _ Hu). unfold disposals, registered. do 2 f_equal.
      pose proof (lookup_lt_Some _ _ _ Hu) as Hlt.
      destruct (decide (requestUuid (session u) = key)) as [Heq|Hneq].
      * rewrite Heq, lookup_insert_eq, Hk.
        rewrite !bool_decide_eq_false_2; [done| |done]. intros [= ?]. lia.
      * by rewrite lookup_insert_ne.
    + apply list_lookup_singleton_Some in Hu as [Hi <-].
      assert (i = length (store s)) as -> by lia.
      unfold disposals, registered. simpl. rewrite lookup_insert_eq.
      rewrite bool_decide_eq_true_2 by done.
      by destruct Hd as [->|[? ->]].
  - intros i u Hu. apply lookup_app_Some in Hu as [Hu|[Hge Hu]]; [eauto|].
    apply list_lookup_singleton_Some in Hu as [Hi <-].
    by destruct Hd as [->|[? ->]].
Qed.

Lemma create_session_evolves now document position key token s :
  evolves (_sessions s) (store s)
    (_sessions (create_session now document position key token s))
    (store (create_session now document position key token s)).
Proof.
  destruct (create_session_parts now document position key token s)
    as (d & Hd & Hm & Hh & _).
  rewrite Hm, Hh. split.
  - intros i u Hu. exists u. split; [|apply task_le_refl].
    by rewrite lookup_app_l by (by eapply lookup_lt_Some).
  - intros k i Hi. apply lookup_insert_Some in Hi as [[<- <-]|[Hne Hi]]; auto.
Qed.

(** *** The moves of a driver *)

Lemma updates_task_wf sid s s' : updates_task sid s s' → wf s → wf s'.
Proof.
  intros (t & t' & Ht & [Hle Huuid Hcount Hcons] & Hm & Hh) Hwf. unfold wf.
  rewrite Hm, Hh. eapply wf_update; eauto.
  apply Hcons. eapply wf_consistent; eauto.
Qed.

Lemma updates_task_evolves sid s s' :
  updates_task sid s s' → wf s →
  evolves (_sessions s) (store s) (_sessions s') (store s').
Proof.
  intros (t & t' & Ht & [Hle _ _ _] & Hm & Hh) Hwf. rewrite Hm, Hh.
  eapply evolves_update; [done|]. apply Hle. eapply wf_consistent; eauto.
Qed.

Lemma driver_finally_store sid how s t :
  store s !! sid = Some t →
  _sessions (driver_finally sid how s) = _sessions s
  ∧ store (driver_finally sid how s)
    = <[sid := set_driver (Returned how) (on_cancellation cts_dispose t)]> (store s)
  ∧ _lastRequestTimestamp (driver_finally sid how s) = _lastRequestTimestamp s
  ∧ dispatches (driver_finally sid how s) = dispatches s
  ∧ tokenListeners (driver_finally sid how s) = tokenListeners s.
Proof.
  intros Ht. unfold driver_finally. rewrite Ht.
  by destruct (Js.truthy (error (session t))).
Qed.

Local Ltac driver_case op :=
  unfold op; intros Hop;
  match type of Hop with
  | match store ?s !! ?sid with _ => _ end = _ =>
    destruct (store s !! sid) as [t|] eqn:Ht; [|discriminate];
    pose proof (lookup_lt_Some _ _ _ Ht) as Hlt;
    destruct t as [x [dl| | |cum stopped|how]] eqn:Et;
    unfold token_fired in Hop; simpl in Hop; try discriminate
  end.

Lemma updates_task_intro sid s s' t t' :
  store s !! sid = Some t → _sessions s' = _sessions s →
  store s' = <[sid := t']> (store s) → task_step t t' → updates_task sid s s'.
Proof. intros. by exists t, t'. Qed.

Local Ltac finish_update :=
  repeat match goal with
  | |- context [driver_finally ?sid ?how ?s] =>
    let H := fresh in
    let Hm := fresh in
    let Hh := fresh in
    let t := fresh "mid" in
    evar (t : Task);
    assert (store s !! sid = Some t) as H
      by (subst t; simpl; rewrite ?list_lookup_alter_eq, ?list_lookup_insert_eq by done;
          repeat match goal with Hs : store _ !! _ = Some _ |- _ => rewrite Hs end;
          simpl; reflexivity);
    destruct (driver_finally_store sid how s t H) as (Hm & Hh & _); subst t;
    rewrite ?Hm, ?Hh; clear H Hm Hh
  end;
  simpl; rewrite ?insert_alter, ?list_insert_insert_eq; try reflexivity.

Local Ltac le_trivial := intros _; split; simpl; auto using is_prefix_of_refl.

Lemma driver_throttle_settled_updates now sid s s' :
  driver_throttle_settled now sid s = Some s' → updates_task sid s s'.
Proof.
  driver_case driver_throttle_settled.
  destruct (raceCancellation_settled _ _ _); [|discriminate]. injection Hop as <-.
  eapply updates_task_intro; [done|finish_update..|].
  split; [le_trivial|done|done|done].
Qed.

Lemma driver_resumed_updates now sid s s' :
  driver_resumed now sid s = Some s' → updates_task sid s s'.
Proof.
  driver_case driver_resumed.
  destruct (isCancellationRequested (cancellation x)) eqn:Hfired;
    injection Hop as <-; (eapply updates_task_intro; [done|finish_update..|]).
  - split; [le_trivial|done|simpl; lia|].
    unfold session_consistent. simpl. tauto.
  - split; [le_trivial|done|done|done].
Qed.

Lemma driver_endpoint_resolved_updates now sid s s' :
  driver_endpoint_resolved now sid s = Some s' → updates_task sid s s'.
Proof.
  driver_case driver_endpoint_resolved. injection Hop as <-.
  eapply updates_task_intro; [done|finish_update..|].
  split; [le_trivial|done|done|].
  unfold session_consistent. simpl. intros (-> & ? & ?).
  auto using is_prefix_of_refl.
Qed.

Lemma finishedCb_updates sid deltaText s s' :
  finishedCb sid deltaText s = Some s' → updates_task sid s s'.
Proof.
  driver_case finishedCb. destruct stopped; [discriminate|].
  destruct (isCancellationRequested (cancellation x)) eqn:Hfired;
    [|destruct (Js.truthy_string deltaText) eqn:Hd];
    injection Hop as <-; (eapply updates_task_intro; [done|finish_update..|]).
  - split; [le_trivial|done|done|].
    unfold session_consistent. simpl. intros (? & ? & ?).
    auto using is_prefix_of_append.
  - split; [|done|done|].
    + (* the old text is a prefix of what the transport had produced *)
      unfold session_consistent. simpl. intros (? & ? & ?).
      split; simpl; auto using is_prefix_of_append.
    + unfold session_consistent. simpl. intros (? & ? & ?).
      auto using is_prefix_of_refl.
  - split; [le_trivial|done|done|].
    unfold session_consistent. simpl. intros (? & ? & ?).
    auto using is_prefix_of_append.
Qed.

Lemma driver_resolved_updates sid response s s' :
  driver_resolved sid response s = Some s' → updates_task sid s s'.
Proof.
  driver_case driver_resolved.
  destruct response as [value| |reason];
    [destruct (Js.truthy_string (text x)) eqn:Htext|..];
    injection Hop as <-; (eapply updates_task_intro; [done|finish_update..|]).
  - split; [le_trivial|done|simpl; lia|].
    unfold session_consistent. simpl. tauto.
  - apply truthy_string_false in Htext. split; [|done|simpl; lia|].
    + intros _. split; simpl; auto. rewrite Htext. apply is_prefix_of_empty.
    + unfold session_consistent. simpl. tauto.
  - split; [le_trivial|done|simpl; lia|].
    unfold session_consistent. simpl. tauto.
  - split; [le_trivial|done|simpl; lia|].
    unfold session_consistent. simpl. tauto.
Qed.

Lemma driver_caught_updates sid message s s' :
  driver_caught sid message s = Some s' → updates_task sid s s'.
Proof.
  driver_case driver_caught;
    (destruct (isCancellationRequested (cancellation x)) eqn:Hfired;
     injection Hop as <-; (eapply updates_task_intro; [done|finish_update..|]);
     (split; [le_trivial|done|simpl; lia|]);
     unfold session_consistent; simpl; tauto).
Qed.

(** *** The polling surface *)

Lemma session_of_lookup key s sid t :
  _sessions s !! key = Some sid → store s !! sid = Some t → session_of key s = Some t.
Proof. unfold session_of. by intros -> <-. Qed.

Lemma session_of_Some key s t :
  wf s → session_of key s = Some t →
  ∃ sid, _sessions s !! key = Some sid ∧ store s !! sid = Some t
         ∧ requestUuid (session t) = key.
Proof.
  unfold session_of. intros Hwf Hs.
  destruct (_sessions s !! key) as [sid|] eqn:Hk; [|done]. simpl in Hs.
  destruct (wf_ref _ _ Hwf _ _ Hk) as (u & Hu & Hku). exists sid.
  split_and!; congruence.
Qed.

Lemma session_of_None key s :
  wf s → session_of key s = None → _sessions s !! key = None.
Proof.
  unfold session_of. intros Hwf Hs.
  destruct (_sessions s !! key) as [sid|] eqn:Hk; [|done]. simpl in Hs.
  destruct (wf_ref _ _ Hwf _ _ Hk) as (u & Hu & Hku). congruence.
Qed.

(** The four things a call of [provideInlineCompletionItems] can do to the
    provider. *)
Lemma provide_cases now cfg document position context token s :
  wf s →
  let key := requestKeyOf document position context in
  let s' := (provideInlineCompletionItems now cfg document position context token s).2 in
  s' = s
  ∨ s' = _clearSession key true s
  ∨ (_sessions s !! key = None
     ∧ s' = create_session now document position key token s)
  ∨ s' = create_session now document position key token (_clearSession key true s).
Proof.
  intros Hwf key. unfold provideInlineCompletionItems. fold key.
  destruct (negb (_isLanguageEnabled cfg document)); [by left|].
  destruct (_isAtMidWord document position) as [[]|]; [by left| |by left].
  destruct (session_of key s) as [t|] eqn:Hs.
  - destruct (session_of_Some _ _ _ Hwf Hs) as (sid & Hk & Ht & Hu). rewrite !Hu.
    destruct (negb (documentVersion (session t) =? version document)).
    + right; right; right. reflexivity.
    + rewrite ?Hu.
      destruct (Js.truthy (error (session t))); [right; left; reflexivity|].
      destruct (negb (Js.truthy_string (text (session t)))); left; reflexivity.
  - right; right; left. split; [|done]. by apply session_of_None.
Qed.

Lemma provide_wf now cfg document position context token s :
  wf s → wf (provideInlineCompletionItems now cfg document position context token s).2.
Proof.
  intros Hwf.
  destruct (provide_cases now cfg document position context token s Hwf)
    as [->|[->|[[Hk ->]| ->]]]; auto using _clearSession_wf, create_session_wf.
  apply create_session_wf; auto using _clearSession_wf, _clearSession_removes.
Qed.

Lemma provide_evolves now cfg document position context token s :
  wf s →
  let s' := (provideInlineCompletionItems now cfg document position context token s).2 in
  evolves (_sessions s) (store s) (_sessions s') (store s').
Proof.
  intros Hwf. cbv zeta.
  destruct (provide_cases now cfg document position context token s Hwf)
    as [->|[->|[[Hk ->]| ->]]];
    [apply evolves_refl|apply _clearSession_evolves|apply create_session_evolves|].
  eapply evolves_trans;
    [apply (_clearSession_evolves (requestKeyOf document position context) true)
    |apply create_session_evolves].
Qed.

(** *** The end-of-lifetime callbacks *)

Lemma handleEndOfLifetime_cases item s :
  handleEndOfLifetime item s = s
  ∨ ∃ id, handleEndOfLifetime item s = _clearSession id false s.
Proof.
  unfold handleEndOfLifetime. destruct (correlationId item) as [id|]; [|by left].
  destruct (Js.truthy_string id); eauto.
Qed.

Lemma handleListEndOfLifetime_cases list s :
  handleListEndOfLifetime list s = s
  ∨ ∃ id, handleListEndOfLifetime list s = _clearSession id false s.
Proof.
  unfold handleListEndOfLifetime.
  destruct (head (items list) ≫= correlationId) as [id|]; [|by left].
  destruct (Js.truthy_string id); eauto.
Qed.

(** *** The host token fires *)

Lemma cancel_children_lookup token h sid t :
  h !! sid = Some t →
  ∃ t', cancel_children token h !! sid = Some t'
        ∧ session t' = set_cancellation
                         ((if (parentToken (cancellation (session t)) =? token)%nat
                           then cts_cancel else id) (cancellation (session t)))
                         (session t)
        ∧ driver t' = driver t.
Proof.
  intros Ht. unfold cancel_children. rewrite list_lookup_fmap, Ht. simpl.
  eexists. split; [done|].
  destruct (_ =? _)%nat; [done|]. by destruct t as [[]].
Qed.

Lemma cancel_children_lookup_inv token h sid t' :
  cancel_children token h !! sid = Some t' → ∃ t, h !! sid = Some t.
Proof.
  unfold cancel_children. rewrite list_lookup_fmap.
  destruct (h !! sid); [eauto|done].
Qed.

Lemma cancel_children_wf token m h :
  wf_parts m h → wf_parts m (cancel_children token h).
Proof.
  intros [Href Hdisp Hcons]. split.
  - intros k sid Hk. destruct (Href _ _ Hk) as (t & Ht & Hkt).
    destruct (cancel_children_lookup token _ _ _ Ht) as (t' & Ht' & Hs & Hd).
    exists t'. split; [done|]. by rewrite Hs.
  - intros sid t' Ht'. destruct (cancel_children_lookup_inv _ _ _ _ Ht') as [t Ht].
    destruct (cancel_children_lookup token _ _ _ Ht) as (t'' & Ht'' & Hs & Hd).
    assert (t'' = t') as -> by congruence.
    specialize (Hdisp _ _ Ht). unfold disposals, registered, returned in *.
    rewrite Hs, Hd. simpl. rewrite <- Hdisp. by destruct (_ =? _)%nat.
  - intros sid t' Ht'. destruct (cancel_children_lookup_inv _ _ _ _ Ht') as [t Ht].
    destruct (cancel_children_lookup token _ _ _ Ht) as (t'' & Ht'' & Hs & Hd).
    assert (t'' = t') as -> by congruence.
    specialize (Hcons _ _ Ht). unfold session_consistent in *.
    by rewrite Hs, Hd.
Qed.

Lemma cancel_children_evolves token m h : evolves m h m (cancel_children token h).
Proof.
  split; [|auto].
  intros sid t Ht.
  destruct (cancel_children_lookup token _ _ _ Ht) as (t' & Ht' & Hs & Hd).
  exists t'. split; [done|]. split; rewrite ?Hs; simpl; auto using is_prefix_of_refl.
  unfold token_fired. rewrite Hs. simpl. by destruct (_ =? _)%nat.
Qed.

Lemma run_listeners_wf token l s : wf s → wf (run_listeners token l s).
Proof.
  unfold run_listeners. revert s. induction l as [|[tok key] l IH]; intros s Hwf; [done|].
  simpl. apply IH. destruct (tok =? token)%nat; auto using _clearSession_wf.
Qed.

Lemma run_listeners_evolves token l s :
  evolves (_sessions s) (store s)
    (_sessions (run_listeners token l s)) (store (run_listeners token l s)).
Proof.
  unfold run_listeners. revert s. induction l as [|[tok key] l IH]; intros s;
    [apply evolves_refl|].
  simpl. eapply evolves_trans; [|apply IH].
  destruct (tok =? token)%nat; auto using evolves_refl, _clearSession_evolves.
Qed.

Lemma token_cancelled_wf token s : wf s → wf (token_cancelled token s).
Proof.
  intros Hwf. unfold token_cancelled. unfold wf. simpl.
  apply (run_listeners_wf token). by apply cancel_children_wf.
Qed.

Lemma token_cancelled_evolves token s :
  evolves (_sessions s) (store s)
    (_sessions (token_cancelled token s)) (store (token_cancelled token s)).
Proof.
  unfold token_cancelled. simpl.
  eapply evolves_trans; [|apply run_listeners_evolves]. simpl.
  apply cancel_children_evolves.
Qed.

(** *** Every event, and every run *)

Lemma step_updates_or_call e s s' :
  step e s = Some s' →
  (∃ sid, updates_task sid s s')
  ∨ (∃ now cfg document position context token,
       s' = (provideInlineCompletionItems now cfg document position context token s).2)
  ∨ (∃ token, s' = token_cancelled token s)
  ∨ s' = s
  ∨ (∃ id, s' = _clearSession id false s).
Proof.
  destruct e; simpl; intros Hs.
  - injection Hs as <-. right; left. by do 6 eexists.
  - injection Hs as <-. right; right; left. by eexists.
  - injection Hs as <-. right; right; right.
    destruct (handleEndOfLifetime_cases completionItem s) as [->|[id ->]]; eauto.
  - injection Hs as <-. right; right; right.
    destruct (handleListEndOfLifetime_cases list s) as [->|[id ->]]; eauto.
  - left. eauto using driver_throttle_settled_updates.
  - left. eauto using driver_resumed_updates.
  - left. eauto using driver_endpoint_resolved_updates.
  - left. eauto using finishedCb_updates.
  - left. eauto using driver_resolved_updates.
  - left. eauto using driver_caught_updates.
Qed.

Lemma step_wf e s s' : step e s = Some s' → wf s → wf s'.
Proof.
  intros Hs Hwf.
  destruct (step_updates_or_call _ _ _ Hs)
    as [[sid Hu]|[(now & cfg & d & p & c & tok & ->)|[[tok ->]|[->|[id ->]]]]];
    eauto using updates_task_wf, provide_wf, token_cancelled_wf, _clearSession_wf.
Qed.

Lemma step_evolves e s s' :
  step e s = Some s' → wf s →
  evolves (_sessions s) (store s) (_sessions s') (store s').
Proof.
  intros Hs Hwf.
  destruct (step_updates_or_call _ _ _ Hs)
    as [[sid Hu]|[(now & cfg & d & p & c & tok & ->)|[[tok ->]|[->|[id ->]]]]].
  - by eapply updates_task_evolves.
  - by apply provide_evolves.
  - apply token_cancelled_evolves.
  - apply evolves_refl.
  - apply _clearSession_evolves.
Qed.

Lemma run_app trace1 trace2 s :
  run (trace1 ++ trace2) s = run trace1 s ≫= run trace2.
Proof.
  revert s. induction trace1 as [|e trace1 IH]; intros s; simpl; [done|].
  destruct (step e s); simpl; auto.
Qed.

Lemma run_wf trace s s' : run trace s = Some s' → wf s → wf s'.
Proof.
  revert s. induction trace as [|e trace IH]; intros s; simpl.
  - by intros [= <-].
  - destruct (step e s) as [s1|] eqn:Hs; [|done]. eauto using step_wf.
Qed.

Lemma run_evolves trace s s' :
  run trace s = Some s' → wf s →
  evolves (_sessions s) (store s) (_sessions s') (store s').
Proof.
  revert s. induction trace as [|e trace IH]; intros s; simpl.
  - intros [= <-] _. apply evolves_refl.
  - destruct (step e s) as [s1|] eqn:Hs; [|done]. intros Hrun Hwf.
    eapply evolves_trans; [by eapply step_evolves|].
    apply IH; eauto using step_wf.
Qed.

Lemma new_provider_wf : wf new_provider.
Proof. split; intros ??; simpl; [by rewrite lookup_empty|done..]. Qed.

Lemma reachable_wf s : reachable s → wf s.
Proof. intros [trace Hrun]. eapply run_wf; eauto using new_provider_wf. Qed.

Lemma reachable_run trace s s' : reachable s → run trace s = Some s' → reachable s'.
Proof.
  intros [trace0 Hrun0] Hrun. exists (trace0 ++ trace).
  by rewrite run_app, Hrun0.
Qed.

(** The registry maps at most one key to a reference. *)
Lemma wf_registered s k sid t :
  wf s → _sessions s !! k = Some sid → store s !! sid = Some t →
  requestUuid (session t) = k.
Proof.
  intros Hwf Hk Ht. destruct (wf_ref _ _ Hwf _ _ Hk) as (u & Hu & <-). congruence.
Qed.

(** A session that the registry has dropped never comes back. *)
Lemma dropped_stays_dropped s trace s' sid :
  wf s → run trace s = Some s' → (sid < length (store s))%nat →
  (∀ k, _sessions s !! k ≠ Some sid) → ∀ k, _sessions s' !! k ≠ Some sid.
Proof.
  intros Hwf Hrun Hlt Hnone k Hk.
  destruct (ev_fresh _ _ _ _ (run_evolves _ _ _ Hrun Hwf) _ _ Hk) as [Hold|Hge].
  - by eapply Hnone.
  - lia.
Qed.

(** *** Listeners of the host token *)

Lemma run_listeners_unknown token l s k :
  _sessions s !! k = None → _sessions (run_listeners token l s) !! k = None.
Proof.
  unfold run_listeners. revert s. induction l as [|[tok key] l IH]; intros s Hk; [done|].
  simpl. apply IH. destruct (tok =? token)%nat; [|done].
  destruct (decide (k = key)) as [->|Hne]; [apply _clearSession_removes|].
  by rewrite _clearSession_other.
Qed.

Lemma run_listeners_removes token l s k :
  (token, k) ∈ l → _sessions (run_listeners token l s) !! k = None.
Proof.
  unfold run_listeners. revert s. induction l as [|[tok key] l IH]; intros s Hin.
  - by apply elem_of_nil in Hin.
  - simpl. apply elem_of_cons in Hin as [[= <- <-]|Hin]; [|by apply IH].
    rewrite Nat.eqb_refl. apply (run_listeners_unknown token).
    apply _clearSession_removes.
Qed.

(** *** A call that gets past the guards *)

Lemma provide_not_found now cfg document position context token s :
  _isLanguageEnabled cfg document = true →
  _isAtMidWord document position = Some false →
  _sessions s !! requestKeyOf document position context = None →
  provideInlineCompletionItems now cfg document position context token s
  = (Result None,
     create_session now document position
       (requestKeyOf document position context) token s).
Proof.
  intros Hl Hm Hk. unfold provideInlineCompletionItems, session_of.
  by rewrite Hl, Hm, Hk.
Qed.

Lemma provide_stale now cfg document position context token s sid t :
  _isLanguageEnabled cfg document = true →
  _isAtMidWord document position = Some false →
  _sessions s !! requestKeyOf document position context = Some sid →
  store s !! sid = Some t →
  documentVersion (session t) ≠ version document →
  provideInlineCompletionItems now cfg document position context token s
  = (Result None,
     create_session now document position
       (requestKeyOf document position context) token
       (_clearSession (requestUuid (session t)) true s)).
Proof.
  intros Hl Hm Hk Ht Hv. unfold provideInlineCompletionItems.
  rewrite Hl, Hm, (session_of_lookup _ _ _ _ Hk Ht). simpl.
  by rewrite (proj2 (Z.eqb_neq _ _) Hv).
Qed.

Lemma provide_found now cfg document position context token s sid t :
  _isLanguageEnabled cfg document = true →
  _isAtMidWord document position = Some false →
  _sessions s !! requestKeyOf document position context = Some sid →
  store s !! sid = Some t →
  documentVersion (session t) = version document →
  provideInlineCompletionItems now cfg document position context token s
  = if Js.truthy (error (session t))
    then (Result None, _clearSession (requestUuid (session t)) true s)
    else (Result (if Js.truthy_string (text (session t))
                  then Some (list_of (session t)) else None), s).
Proof.
  intros Hl Hm Hk Ht Hv. unfold provideInlineCompletionItems.
  rewrite Hl, Hm, (session_of_lookup _ _ _ _ Hk Ht). simpl.
  rewrite (proj2 (Z.eqb_eq _ _) Hv). simpl.
  destruct (Js.truthy (error (session t))); [done|].
  by destruct (Js.truthy_string (text (session t))).
Qed.

(** A call for a key whose session is current and has no error leaves the
    provider as it is, whatever the guards say. *)
Lemma provide_current_unchanged now cfg document position context token s sid t :
  _sessions s !! requestKeyOf document position context = Some sid →
  store s !! sid = Some t →
  documentVersion (session t) = version document →
  Js.truthy (error (session t)) = false →
  (provideInlineCompletionItems now cfg document position context token s).2 = s.
Proof.
  intros Hk Ht Hv He. unfold provideInlineCompletionItems.
  destruct (negb (_isLanguageEnabled cfg document)); [done|].
  destruct (_isAtMidWord document position) as [[]|]; [done| |done].
  rewrite (session_of_lookup _ _ _ _ Hk Ht). simpl.
  rewrite (proj2 (Z.eqb_eq _ _) Hv). simpl. rewrite He.
  by destruct (negb (Js.truthy_string (text (session t)))).
Qed.

(** *** Frames of the host calls and of the drivers *)

Lemma run_listeners_untouched token l s k :
  (token, k) ∉ l → _sessions (run_listeners token l s) !! k = _sessions s !! k.
Proof.
  unfold run_listeners. revert s. induction l as [|[tok key] l IH]; intros s Hnin; [done|].
  simpl. apply not_elem_of_cons in Hnin as [Hne Hnin]. rewrite IH by done.
  destruct (tok =? token)%nat eqn:Htok; [|done].
  apply Nat.eqb_eq in Htok as ->. apply _clearSession_other. congruence.
Qed.

Lemma run_listeners_frame token l s :
  tokenListeners (run_listeners token l s) = tokenListeners s
  ∧ dispatches (run_listeners token l s) = dispatches s
  ∧ _lastRequestTimestamp (run_listeners token l s) = _lastRequestTimestamp s.
Proof.
  unfold run_listeners. revert s. induction l as [|[tok key] l IH]; intros s; [done|].
  simpl. destruct (IH (if (tok =? token)%nat then _clearSession key true s else s))
    as (-> & -> & ->).
  destruct (tok =? token)%nat; [|done].
  by destruct (_clearSession_frame key true s) as (-> & -> & ->).
Qed.

Lemma token_cancelled_frame token s :
  dispatches (token_cancelled token s) = dispatches s
  ∧ _lastRequestTimestamp (token_cancelled token s) = _lastRequestTimestamp s.
Proof.
  unfold token_cancelled. simpl.
  destruct (run_listeners_frame token (tokenListeners s)
              (set_store (cancel_children token (store s)) s)) as (_ & -> & ->).
  done.
Qed.

(** ** What the host can and cannot change *)

Lemma same_results_refl t : same_results t t.
Proof. by repeat split. Qed.

Lemma same_results_trans t1 t2 t3 :
  same_results t1 t2 → same_results t2 t3 → same_results t1 t3.
Proof. intros (?&?&?&?) (?&?&?&?). repeat split; congruence. Qed.

Lemma same_results_request_issued t t' :
  same_results t t' → request_issued t' = request_issued t.
Proof. intros (Hd & _). unfold request_issued. by rewrite Hd. Qed.

Lemma host_frame_refl h : host_frame h h.
Proof. split; [eauto using same_results_refl|congruence]. Qed.

Lemma host_frame_trans h1 h2 h3 :
  host_frame h1 h2 → host_frame h2 h3 → host_frame h1 h3.
Proof.
  intros [Ho12 Hn12] [Ho23 Hn23]. split.
  - intros sid t Ht. destruct (Ho12 _ _ Ht) as (t2 & Ht2 & Hs2).
    destruct (Ho23 _ _ Ht2) as (t3 & Ht3 & Hs3). eauto using same_results_trans.
  - intros sid t3 Hnone Ht3. destruct (h2 !! sid) as [t2|] eqn:Ht2; [|eauto].
    destruct (Ho23 _ _ Ht2) as (t3' & Ht3' & Hs3).
    assert (t3' = t3) as -> by congruence.
    rewrite (same_results_request_issued _ _ Hs3). eauto.
Qed.

Lemma _clearSession_host_frame key cancel s :
  host_frame (store s) (store (_clearSession key cancel s)).
Proof.
  unfold _clearSession. destruct (_sessions s !! key) as [sid0|]; [|apply host_frame_refl].
  simpl. split.
  - intros sid t Ht. destruct (decide (sid = sid0)) as [->|Hne].
    + rewrite list_lookup_alter_eq, Ht. simpl. eexists. split; [done|].
      by repeat split.
    + rewrite list_lookup_alter_ne by done. eauto using same_results_refl.
  - intros sid t' Hnone Ht'. destruct (decide (sid = sid0)) as [->|Hne].
    + by rewrite list_lookup_alter_eq, Hnone in Ht'.
    + rewrite list_lookup_alter_ne in Ht' by done. congruence.
Qed.

Lemma create_session_host_frame now document position key token s :
  host_frame (store s) (store (create_session now document position key token s)).
Proof.
  destruct (create_session_parts now document position key token s)
    as (d & Hd & _ & -> & _).
  split.
  - intros sid t Ht. exists t. split; [|apply same_results_refl].
    by rewrite lookup_app_l by (by eapply lookup_lt_Some).
  - intros sid t' Hnone Ht'. apply lookup_ge_None in Hnone.
    rewrite lookup_app_r in Ht' by done.
    apply list_lookup_singleton_Some in Ht' as [_ <-].
    unfold request_issued. simpl. by destruct Hd as [->|[? ->]].
Qed.

Lemma cancel_children_host_frame token h : host_frame h (cancel_children token h).
Proof.
  split.
  - intros sid t Ht.
    destruct (cancel_children_lookup token _ _ _ Ht) as (t' & Ht' & Hs & Hd).
    exists t'. split; [done|]. unfold same_results. rewrite Hs, Hd. by repeat split.
  - intros sid t' Hnone Ht'.
    destruct (cancel_children_lookup_inv _ _ _ _ Ht') as [t Ht]. congruence.
Qed.

Lemma run_listeners_host_frame token l s :
  host_frame (store s) (store (run_listeners token l s)).
Proof.
  unfold run_listeners. revert s. induction l as [|[tok key] l IH]; intros s;
    [apply host_frame_refl|].
  simpl. eapply host_frame_trans; [|apply IH].
  destruct (tok =? token)%nat; auto using host_frame_refl, _clearSession_host_frame.
Qed.

Lemma token_cancelled_host_frame token s :
  host_frame (store s) (store (token_cancelled token s)).
Proof.
  unfold token_cancelled. simpl.
  eapply host_frame_trans; [apply cancel_children_host_frame|].
  exact (run_listeners_host_frame token (tokenListeners s)
           (set_store (cancel_children token (store s)) s)).
Qed.

Lemma host_step_frame e s s' :
  is_host_event e = true → wf s → step e s = Some s' →
  host_frame (store s) (store s') ∧ dispatches s' = dispatches s.
Proof.
  intros He Hwf Hs.
  destruct e as [now enabledLanguages document pos context token|token|completionItem
                |list| | | | | |]; try discriminate; simpl in Hs; injection Hs as <-.
  - destruct (provide_cases now enabledLanguages document pos context token s Hwf)
      as [->|[->|[[_ ->]| ->]]].
    + split; [apply host_frame_refl|done].
    + split; [apply _clearSession_host_frame|apply _clearSession_frame].
    + split; [apply create_session_host_frame|].
      by destruct (create_session_parts now document pos
                     (requestKeyOf document pos context) token s)
        as (d & _ & _ & _ & _ & ->).
    + split.
      * eapply host_frame_trans;
          [apply (_clearSession_host_frame (requestKeyOf document pos context) true)
          |apply create_session_host_frame].
      * destruct (create_session_parts now document pos
                    (requestKeyOf document pos context) token
                    (_clearSession (requestKeyOf document pos context) true s))
          as (d & _ & _ & _ & _ & ->).
        apply _clearSession_frame.
  - split; [apply token_cancelled_host_frame|].
    apply token_cancelled_frame.
  - destruct (handleEndOfLifetime_cases completionItem s) as [->|[id ->]].
    + split; [apply host_frame_refl|done].
    + split; [apply _clearSession_host_frame|apply _clearSession_frame].
  - destruct (handleListEndOfLifetime_cases list s) as [->|[id ->]].
    + split; [apply host_frame_refl|done].
    + split; [apply _clearSession_host_frame|apply _clearSession_frame].
Qed.

(** ** What a driver can and cannot change *)

Lemma driver_finally_dispatches sid how s :
  dispatches (driver_finally sid how s) = dispatches s.
Proof.
  unfold driver_finally. destruct (store s !! sid) as [t|]; [|done].
  by destruct (Js.truthy (error (session t))).
Qed.

Lemma driver_move_intro sid s s' t t' :
  store s !! sid = Some t → returned t = false →
  _sessions s' = _sessions s → store s' = <[sid := t']> (store s) →
  (dispatches s' = dispatches s
   ∧ ∀ b, request_issued t' = Some b → request_issued t = Some b)
  ∨ (∃ now, dispatches s' = dispatches s ++ [(sid, now)]
            ∧ request_issued t = Some false ∧ request_issued t' = Some true) →
  driver_move sid s s'.
Proof. intros. by exists t, t'. Qed.

Lemma driver_step_precise e sid s s' :
  driver_of_event e = Some sid → step e s = Some s' → driver_move sid s s'.
Proof.
  destruct e as [| | | |now sid0|now sid0|now sid0|sid0 deltaText|sid0 response
                |sid0 message];
    try discriminate; intros [= ->]; unfold step.
  - driver_case driver_throttle_settled.
    destruct (raceCancellation_settled _ _ _); [|discriminate]. injection Hop as <-.
    eapply driver_move_intro; [done|done|finish_update..|]. by left.
  - driver_case driver_resumed.
    destruct (isCancellationRequested (cancellation x)) eqn:Hfired;
      injection Hop as <-;
      (eapply driver_move_intro; [done|done|finish_update..|]);
      left; by rewrite ?driver_finally_dispatches.
  - driver_case driver_endpoint_resolved. injection Hop as <-.
    eapply driver_move_intro; [done|done|finish_update..|]. right. by exists now.
  - driver_case finishedCb. destruct stopped; [discriminate|].
    destruct (isCancellationRequested (cancellation x)) eqn:Hfired;
      [|destruct (Js.truthy_string deltaText) eqn:Hd];
      injection Hop as <-;
      (eapply driver_move_intro; [done|done|finish_update..|]); by left.
  - driver_case driver_resolved.
    destruct response as [value| |reason];
      [destruct (Js.truthy_string (text x)) eqn:Htext|..];
      injection Hop as <-;
      (eapply driver_move_intro; [done|done|finish_update..|]);
      left; by rewrite driver_finally_dispatches.
  - driver_case driver_caught;
      (destruct (isCancellationRequested (cancellation x)) eqn:Hfired;
       injection Hop as <-;
       (eapply driver_move_intro; [done|done|finish_update..|]);
       left; by rewrite driver_finally_dispatches).
Qed.

Lemma event_kind e :
  is_host_event e = true ∨ ∃ sid, driver_of_event e = Some sid.
Proof. destruct e; simpl; eauto. Qed.

(** Sessions that exist keep their results through any event, unless it is
    the resumption of their own driver; such a resumption is never possible
    once the driver has returned. *)
Lemma step_keeps_other_results e s s' sid t :
  wf s → step e s = Some s' → store s !! sid = Some t →
  driver_of_event e ≠ Some sid ∨ returned t = true →
  ∃ t', store s' !! sid = Some t' ∧ same_results t t'.
Proof.
  intros Hwf Hs Ht Hother. destruct (event_kind e) as [Hhost|[sid0 Hdrv]].
  - destruct (host_step_frame _ _ _ Hhost Hwf Hs) as [[Hold _] _]. eauto.
  - destruct (driver_step_precise _ _ _ _ Hdrv Hs)
      as (t0 & t0' & Ht0 & Hret & _ & Hst & _).
    destruct (decide (sid0 = sid)) as [->|Hne].
    + destruct Hother as [Hother|Hother]; [by destruct Hother|congruence].
    + exists t. rewrite Hst, list_lookup_insert_ne by done.
      split; [done|apply same_results_refl].
Qed.


(** * Properties of the session lifecycle *)

(** ** Clearing *)

(** C10.  For a correlation id with no registered session, [_clearSession],
    [handleEndOfLifetime] and [handleListEndOfLifetime] return the provider
    as it is: the registry, every session object, the throttle timestamp and
    the pending notifications are unchanged, and no error path exists (the
    three are total functions).  Clearing is idempotent: a second
    [_clearSession] of the same id changes nothing. *)
Theorem clearing_unknown_id_is_noop (s : Provider) (id : string) :
  _sessions s !! id = None →
  (∀ cancel, _clearSession id cancel s = s)
  ∧ (∀ item, correlationId item = Some id → handleEndOfLifetime item s = s)
  ∧ (∀ list, head (items list) ≫= correlationId = Some id →
             handleListEndOfLifetime list s = s)
  ∧ (∀ cancel s0, _clearSession id cancel (_clearSession id cancel s0)
                  = _clearSession id cancel s0).
Proof.
  intros Hk. split_and!.
  - intros cancel. by apply _clearSession_unknown.
  - intros item Hid. unfold handleEndOfLifetime. rewrite Hid.
    destruct (Js.truthy_string id); [by apply _clearSession_unknown|done].
  - intros list Hid. unfold handleListEndOfLifetime. rewrite Hid.
    destruct (Js.truthy_string id); [by apply _clearSession_unknown|done].
  - intros cancel s0. apply _clearSession_unknown, _clearSession_removes.
Qed.

Lemma clearing_unknown_id_is_noop_witness :
  _sessions (after Sample.streaming) !! "K2"%string = None
  ∧ handleEndOfLifetime
      {| insertText := "ab"; item_range := mkRange Sample.at_end_v1 Sample.at_end_v1;
         correlationId := Some "K2"%string |} (after Sample.streaming)
    = after Sample.streaming.
Proof.
  split; [vm_compute; reflexivity|].
  apply (clearing_unknown_id_is_noop (after Sample.streaming) "K2"); vm_compute; reflexivity.
Defined.

(** C4, as the code has it.  An end-of-lifetime callback that carries the
    non-empty correlation id of a registered session removes the session
    from the registry and disposes its cancellation handle, and it does not
    trigger the handle: [_clearSession] is called with [cancel = false], so
    the token of the session is fired afterwards exactly if it was before. *)
Theorem end_of_lifetime_discards_without_cancel
    (s : Provider) (id : string) (sid : nat) (t : Task) :
  Js.truthy_string id = true →
  _sessions s !! id = Some sid → store s !! sid = Some t →
  let t' := on_cancellation cts_dispose t in
  (∀ item, correlationId item = Some id →
     _sessions (handleEndOfLifetime item s) = delete id (_sessions s)
     ∧ store (handleEndOfLifetime item s) = <[sid := t']> (store s))
  ∧ (∀ list, head (items list) ≫= correlationId = Some id →
     _sessions (handleListEndOfLifetime list s) = delete id (_sessions s)
     ∧ store (handleListEndOfLifetime list s) = <[sid := t']> (store s))
  ∧ token_fired t' = token_fired t
  ∧ disposeCalls (cancellation (session t')) = S (disposeCalls (cancellation (session t))).
Proof.
  intros Hid Hk Ht t'. split_and!; [| |done..].
  - intros item Hitem. unfold handleEndOfLifetime. rewrite Hitem, Hid.
    exact (_clearSession_known id false s sid t Hk Ht).
  - intros list Hlist. unfold handleListEndOfLifetime. rewrite Hlist, Hid.
    exact (_clearSession_known id false s sid t Hk Ht).
Qed.

Lemma end_of_lifetime_discards_without_cancel_witness :
  store (after Sample.streaming) !! 0%nat = Some Sample.streaming_task
  ∧ _sessions (handleEndOfLifetime Sample.shown_item (after Sample.streaming))
    = delete "K1"%string (_sessions (after Sample.streaming))
  ∧ token_fired (on_cancellation cts_dispose Sample.streaming_task) = false.
Proof.
  split; [vm_compute; reflexivity|].
  pose proof (end_of_lifetime_discards_without_cancel
                (after Sample.streaming) "K1" 0 Sample.streaming_task
                ltac:(vm_compute; reflexivity) ltac:(vm_compute; reflexivity) ltac:(vm_compute; reflexivity)) as (Hitem & _ & Hfired & _).
  split; [exact (proj1 (Hitem Sample.shown_item ltac:(vm_compute; reflexivity)))|exact Hfired].
Defined.

(** C4, as the spec has it, fails.  Session 0 is registered under [K1] and
    is streaming, its token has not fired.  The host reports the end of
    lifetime of the item it was shown: the session leaves the registry, and
    its token has still not fired -- the callback did not force-cancel. *)
Lemma expiry_does_not_cancel_counterexample :
  run Sample.streaming new_provider = Some (after Sample.streaming)
  ∧ _sessions (after Sample.streaming) !! "K1"%string = Some 0%nat
  ∧ token_fired <$> store (after Sample.streaming) !! 0%nat = Some false
  ∧ _sessions (handleEndOfLifetime Sample.shown_item (after Sample.streaming))
      !! "K1"%string = None
  ∧ token_fired
      <$> store (handleEndOfLifetime Sample.shown_item (after Sample.streaming)) !! 0%nat
    = Some false.
Proof. split_and!; vm_compute; reflexivity. Qed.

(** ** The cancellation handle *)

(** C2, as the code has it.  In every reachable state the number of
    [dispose()] calls a session's handle has received is one for the
    [finally] block of its driver, once the driver has returned on whatever
    path, plus one for [_clearSession], once the registry has dropped the
    session.  So the handle is disposed on every terminal transition, it is
    disposed at most twice, and exactly once only while one of the two has
    happened and the other has not. *)
Theorem dispose_once_per_owner (s : Provider) (sid : nat) (t : Task) :
  reachable s → store s !! sid = Some t →
  disposeCalls (cancellation (session t))
  = ((if returned t then 1 else 0)
     + (if registered (_sessions s) sid t then 0 else 1))%nat
  ∧ (returned t = true → 1 ≤ disposeCalls (cancellation (session t)))%nat
  ∧ (disposeCalls (cancellation (session t)) ≤ 2)%nat.
Proof.
  intros Hr Ht. pose proof (wf_dispose _ _ (reachable_wf _ Hr) _ _ Ht) as Hd.
  unfold disposals in Hd. rewrite Hd.
  destruct (returned t), (registered _ _ _); split_and!; (done || lia).
Qed.

Lemma dispose_once_per_owner_witness :
  reachable (after Sample.streaming)
  ∧ store (after Sample.streaming) !! 0%nat = Some Sample.streaming_task
  ∧ disposeCalls (cancellation (session Sample.streaming_task)) = 0%nat.
Proof.
  assert (reachable (after Sample.streaming)) as Hr by (by exists Sample.streaming).
  split; [exact Hr|]. split; [vm_compute; reflexivity|].
  exact (proj1 (dispose_once_per_owner (after Sample.streaming) 0
                  Sample.streaming_task Hr ltac:(vm_compute; reflexivity))).
Defined.

(** C2, as the spec has it, fails.  Session 0 streams for version 1 of the
    document; a call for the same key and version 2 clears it
    ([_clearSession] disposes the handle), and when its remote call then
    resolves the [finally] block disposes the handle again: two calls of
    [dispose()], not one. *)
Lemma dispose_twice_counterexample :
  run Sample.superseded new_provider = Some (after Sample.superseded)
  ∧ (disposeCalls ∘ cancellation ∘ session)
      <$> store (after Sample.superseded) !! 0%nat = Some 2%nat.
Proof. split; vm_compute; reflexivity. Qed.

(** ** The error field *)

(** C5, as the code has it.  For every event and every session of a
    reachable state: the [error] of the session is unset as long as its
    driver has not returned; an event that is not a resumption of its own
    driver leaves [error] as it is; and a resumption of its own driver
    leaves it set to the literal [cancelled] when the remote call resolves
    as cancelled, to the reason when it resolves as failed, to the message
    of the exception when one is caught while the token has not fired, and
    unset in every other case -- success, a caught exception after the token
    has fired, the return after the throttle.  [done] is never set together
    with [error]. *)
Theorem error_written_per_exit
    (e : Event) (s s' : Provider) (sid : nat) (t : Task) :
  reachable s → step e s = Some s' → store s !! sid = Some t →
  ∃ t', store s' !! sid = Some t'
    ∧ (returned t = false → error (session t) = None)
    ∧ error (session t')
      = (if decide (driver_of_event e = Some sid) then
           match e with
           | Resolved _ Canceled => Some "cancelled"%string
           | Resolved _ (Failed reason) => Some reason
           | Caught _ message => if token_fired t then None else Some message
           | _ => None
           end
         else error (session t))
    ∧ (done (session t') = true → error (session t') = None).
Proof.
  intros Hr Hs Ht. pose proof (reachable_wf _ Hr) as Hwf.
  pose proof (lookup_lt_Some _ _ _ Ht) as Hlt.
  pose proof (wf_consistent _ _ Hwf _ _ Ht) as Hc. unfold session_consistent in Hc.
  assert (returned t = false → error (session t) = None) as Hunset.
  { unfold returned. destruct (driver t); (tauto || discriminate). }
  assert (∃ t', store s' !! sid = Some t'
            ∧ error (session t')
              = (if decide (driver_of_event e = Some sid) then
                   match e with
                   | Resolved _ Canceled => Some "cancelled"%string
                   | Resolved _ (Failed reason) => Some reason
                   | Caught _ message => if token_fired t then None else Some message
                   | _ => None
                   end
                 else error (session t))) as (t' & Ht' & Herr).
  { destruct (decide (driver_of_event e = Some sid)) as [Hown|Hother].
    - destruct e as [| | | |now sid0|now sid0|now sid0|sid0 deltaText|sid0 response
                    |sid0 message]; try discriminate; injection Hown as ->;
        unfold step in Hs.
      + unfold driver_throttle_settled in Hs. rewrite Ht in Hs.
        destruct (driver t); try discriminate.
        destruct (raceCancellation_settled _ _ _); [|discriminate]. injection Hs as <-.
        eexists. split; [simpl; by apply list_lookup_insert_eq|]. simpl. tauto.
      + unfold driver_resumed in Hs. rewrite Ht in Hs.
        destruct (driver t); try discriminate.
        destruct (token_fired t); injection Hs as <-.
        * destruct (driver_finally_store sid ExitTokenFired s t Ht) as (_ & -> & _).
          eexists. split; [by apply list_lookup_insert_eq|]. simpl. tauto.
        * eexists. split; [simpl; by apply list_lookup_insert_eq|]. simpl. tauto.
      + unfold driver_endpoint_resolved in Hs. rewrite Ht in Hs.
        destruct (driver t); try discriminate. injection Hs as <-.
        eexists. split; [simpl; by apply list_lookup_insert_eq|]. simpl. tauto.
      + unfold finishedCb in Hs. rewrite Ht in Hs.
        destruct (driver t) as [| | |cumulative [|]|]; try discriminate.
        destruct (token_fired t); [|destruct (Js.truthy_string deltaText)];
          injection Hs as <-;
          (eexists; split; [simpl; by apply list_lookup_insert_eq|]); simpl; tauto.
      + unfold driver_resolved in Hs. rewrite Ht in Hs.
        destruct (driver t); try discriminate.
        destruct response as [value| |reason].
        * destruct (Js.truthy_string (text (session t))); injection Hs as <-.
          -- edestruct driver_finally_store as (_ & -> & _);
               [simpl; by rewrite list_lookup_alter_eq, Ht|].
             eexists. split; [apply list_lookup_insert_eq; simpl; by rewrite length_alter|].
             simpl. tauto.
          -- edestruct driver_finally_store as (_ & -> & _);
               [simpl; by rewrite list_lookup_alter_eq, list_lookup_insert_eq by done|].
             eexists.
             split; [apply list_lookup_insert_eq; simpl; by rewrite length_alter, length_insert|].
             simpl. tauto.
        * injection Hs as <-.
          edestruct driver_finally_store as (_ & -> & _);
            [simpl; by apply list_lookup_insert_eq|].
          eexists. split; [apply list_lookup_insert_eq; simpl; by rewrite length_insert|]. done.
        * injection Hs as <-.
          edestruct driver_finally_store as (_ & -> & _);
            [simpl; by apply list_lookup_insert_eq|].
          eexists. split; [apply list_lookup_insert_eq; simpl; by rewrite length_insert|]. done.
      + unfold driver_caught in Hs. rewrite Ht in Hs.
        assert (error (session t) = None) as Hnone
          by (destruct (driver t); (tauto || discriminate)).
        assert (driver_caught_enabled : driver t = AwaitEndpoint ∨ ∃ c b, driver t = AwaitFetch c b)
          by (destruct (driver t); try discriminate; eauto).
        assert (Some (if token_fired t
                      then driver_finally sid (ExitCaught message true) s
                      else driver_finally sid (ExitCaught message false)
                             (set_store (<[sid := on_session (set_error (Some message)) t]>
                                           (store s)) s)) = Some s') as Hs'
          by (destruct driver_caught_enabled as [Hd|(c & b & Hd)]; rewrite Hd in Hs;
              by destruct (token_fired t)).
        clear Hs. destruct (token_fired t); injection Hs' as <-.
        * destruct (driver_finally_store sid (ExitCaught message true) s t Ht)
            as (_ & -> & _).
          eexists. split; [by apply list_lookup_insert_eq|]. done.
        * edestruct driver_finally_store as (_ & -> & _);
            [simpl; by apply list_lookup_insert_eq|].
          eexists. split; [apply list_lookup_insert_eq; simpl; by rewrite length_insert|]. done.
    - destruct (step_keeps_other_results e s s' sid t Hwf Hs Ht (or_introl Hother))
        as (t' & Ht' & _ & _ & _ & He).
      by exists t'. }
  exists t'. split_and!; try done.
  pose proof (wf_consistent _ _ (step_wf _ _ _ Hs Hwf) _ _ Ht') as Hc'.
  unfold session_consistent in Hc'. intros Hdone.
  destruct (driver t') as [| | | |how]; try (destruct Hc' as (_ & Hd & _); congruence).
  destruct Hc' as [He Hd]. rewrite He. rewrite Hd in Hdone. by destruct how.
Qed.

Lemma error_written_per_exit_witness :
  reachable (after Sample.dispatched)
  ∧ step (Resolved 0 Canceled) (after Sample.dispatched)
    = Some (after Sample.resolved_cancelled)
  ∧ store (after Sample.dispatched) !! 0%nat = Some Sample.dispatched_task
  ∧ ∃ t', store (after Sample.resolved_cancelled) !! 0%nat = Some t'
          ∧ error (session t') = Some "cancelled"%string.
Proof.
  assert (reachable (after Sample.dispatched)) as Hr
    by (exists Sample.dispatched; vm_compute; reflexivity).
  split_and!; [exact Hr|vm_compute; reflexivity..|].
  destruct (error_written_per_exit (Resolved 0 Canceled) (after Sample.dispatched)
              (after Sample.resolved_cancelled) 0 Sample.dispatched_task Hr
              ltac:(vm_compute; reflexivity) ltac:(vm_compute; reflexivity))
    as (t' & Ht' & _ & Herr & _).
  exists t'. split; [exact Ht'|exact Herr].
Defined.

(** C5, as the spec has it, fails.  The remote call of session 0 resolves
    as cancelled, no failure was reported, and the driver sets [error] to
    [cancelled]. *)
Lemma cancelled_sets_error_counterexample :
  run Sample.resolved_cancelled new_provider = Some (after Sample.resolved_cancelled)
  ∧ (error ∘ session) <$> store (after Sample.resolved_cancelled) !! 0%nat
    = Some (Some "cancelled"%string)
  ∧ driver <$> store (after Sample.resolved_cancelled) !! 0%nat
    = Some (Returned ExitCanceled).
Proof. split_and!; vm_compute; reflexivity. Qed.

(** ** The request throttle *)

(** C3, as the code has it.  [_throttle] has no aborting exit.  When the
    awaited race is settled -- the timer has elapsed or the token has fired
    -- the call sets [_lastRequestTimestamp] to the current time in either
    case.  What a fired token changes is the driver afterwards: it returns
    without issuing the remote request, and the timestamp written by the
    cancelled call stays. *)
Theorem throttle_exit_always_stamps
    (now : Z) (sid : nat) (s s' : Provider) (t : Task) :
  store s !! sid = Some t →
  driver_throttle_settled now sid s = Some s' →
  _lastRequestTimestamp s' = now
  ∧ dispatches s' = dispatches s
  ∧ (token_fired t = true →
     ∀ now' s'', driver_resumed now' sid s' = Some s'' →
       _lastRequestTimestamp s'' = now
       ∧ dispatches s'' = dispatches s
       ∧ driver <$> store s'' !! sid = Some (Returned ExitTokenFired)).
Proof.
  intros Ht Hs. unfold driver_throttle_settled in Hs. rewrite Ht in Hs.
  pose proof (lookup_lt_Some _ _ _ Ht) as Hlt.
  destruct (driver t) as [dl| | | |] eqn:Hd; try discriminate.
  destruct (raceCancellation_settled now dl (token_fired t)); [|discriminate].
  injection Hs as <-. split_and!; [done..|].
  intros Hfired now' s''. unfold driver_resumed. simpl.
  rewrite list_lookup_insert_eq by done. simpl.
  unfold token_fired in *. simpl. rewrite Hfired. intros [= <-].
  edestruct driver_finally_store as (_ & -> & -> & -> & _);
    [simpl; by apply list_lookup_insert_eq|].
  split_and!; [done..|].
  simpl. by rewrite list_lookup_insert_eq by (by rewrite length_insert).
Qed.

Lemma throttle_exit_always_stamps_witness :
  store (after Sample.cancelled_in_wait) !! 1%nat = Some Sample.waiting_task
  ∧ driver_throttle_settled 1030 1 (after Sample.cancelled_in_wait)
    = Some (after (Sample.cancelled_in_wait ++ [ThrottleSettled 1030 1]))
  ∧ _lastRequestTimestamp (after (Sample.cancelled_in_wait ++ [ThrottleSettled 1030 1]))
    = 1030.
Proof.
  split; [vm_compute; reflexivity|]. split; [vm_compute; reflexivity|].
  exact (proj1 (throttle_exit_always_stamps 1030 1 (after Sample.cancelled_in_wait)
                  (after (Sample.cancelled_in_wait ++ [ThrottleSettled 1030 1]))
                  Sample.waiting_task ltac:(vm_compute; reflexivity) ltac:(vm_compute; reflexivity))).
Defined.

(** C3, as the spec has it, fails.  The last request was stamped at 1000.
    Session 1 enters the throttle at 1010 and waits until 1075; the host
    token fires, and at 1030 the wait ends early.  The cancelled call moves
    the timestamp from 1000 to 1030. *)
Lemma cancelled_wait_stamps_counterexample :
  run Sample.cancelled_in_wait new_provider = Some (after Sample.cancelled_in_wait)
  ∧ _lastRequestTimestamp (after Sample.cancelled_in_wait) = 1000
  ∧ driver <$> store (after Sample.cancelled_in_wait) !! 1%nat
    = Some (AwaitThrottleTimer 1075)
  ∧ token_fired <$> store (after Sample.cancelled_in_wait) !! 1%nat = Some true
  ∧ (_lastRequestTimestamp
       <$> step (ThrottleSettled 1030 1) (after Sample.cancelled_in_wait)) = Some 1030.
Proof. split_and!; vm_compute; reflexivity. Qed.

(** C9 fails on the code.  The last request was stamped at 1000; the host
    asks for key [a] at 1010 and for key [b] at 1020.  Each call computes its
    wait against the stamp of 1000, both timers elapse at 1075, and both
    remote requests are issued at 1075: consecutive dispatches 0 ms apart. *)
Theorem burst_breaks_min_spacing :
  chronological_from 0 Sample.burst = true
  ∧ run Sample.burst new_provider = Some (after Sample.burst)
  ∧ dispatches (after Sample.burst) = [(0%nat, 1000); (1%nat, 1075); (2%nat, 1075)]
  ∧ min_spacing_holds (snd <$> dispatches (after Sample.burst)) = false.
Proof. split_and!; vm_compute; reflexivity. Qed.

(** ** The polling surface *)



(** C6.  A call that gets as far as the key lookup and finds a session
    whose [documentVersion] is not the document's current version first
    clears that session with [cancel = true]: the old session is out of the
    registry and its token has fired before anything is created.  The call
    then goes on exactly as a call on the cleared provider, where the key
    has no session: it returns [undefined] and registers a fresh session for
    the current version under a new reference: an object with the key, the
    URI and the version of the document of this call, the position of this
    call, empty text, [done] and [error] unset and an unfired handle on the
    token of this call, its driver suspended in the throttle. *)
Theorem stale_session_replaced
    (now : Z) (cfg : EnableConfig) (document : TextDocument) (position : Position)
    (context : InlineCompletionContext) (token : nat) (s : Provider)
    (sid : nat) (t : Task) :
  reachable s →
  _isLanguageEnabled cfg document = true →
  _isAtMidWord document position = Some false →
  _sessions s !! requestKeyOf document position context = Some sid →
  store s !! sid = Some t →
  documentVersion (session t) ≠ version document →
  let key := requestKeyOf document position context in
  let cleared := _clearSession key true s in
  let old := on_cancellation (release true) t in
  let r := provideInlineCompletionItems now cfg document position context token s in
  _sessions cleared = delete key (_sessions s)
  ∧ store cleared = <[sid := old]> (store s)
  ∧ token_fired old = true
  ∧ r = provideInlineCompletionItems now cfg document position context token cleared
  ∧ r = (Result None, create_session now document position key token cleared)
  ∧ _sessions r.2 = <[key := length (store s)]> (delete key (_sessions s))
  ∧ length (store s) ≠ sid
  ∧ ∃ d, suspended_in_throttle d
      ∧ store r.2
        = <[sid := old]> (store s)
          ++ [ {| session :=
                    {| requestUuid := key;
                       documentUri := uri document;
                       documentVersion := version document;
                       position := position;
                       range := mkRange position position;
                       cancellation := {| parentToken := token;
                                          isCancellationRequested := false;
                                          disposeCalls := 0 |};
                       text := "";
                       done := false;
                       error := None |};
                  driver := d |} ].
Proof.
  intros Hr Hl Hm Hk Ht Hv key cleared old r.
  pose proof (wf_registered _ _ _ _ (reachable_wf _ Hr) Hk Ht) as Hu.
  destruct (_clearSession_known key true s sid t Hk Ht) as [Hcm Hcs].
  assert (r = (Result None, create_session now document position key token cleared))
    as Hr1.
  { subst r cleared. rewrite (provide_stale _ _ _ _ _ _ _ _ _ Hl Hm Hk Ht Hv).
    by rewrite Hu. }
  destruct (create_session_parts now document position key token cleared)
    as (d & Hd & Hreg & Hst & _).
  split_and!; try done.
  - apply release_fired. by right.
  - rewrite Hr1. symmetry. apply provide_not_found; [done..|].
    apply _clearSession_removes.
  - rewrite Hr1. simpl. rewrite Hreg. unfold cleared. rewrite Hcs, Hcm.
    by rewrite length_insert.
  - apply lookup_lt_Some in Ht. lia.
  - exists d. split; [done|]. rewrite Hr1. simpl. rewrite Hst. unfold cleared.
    by rewrite Hcs.
Qed.

Lemma stale_session_replaced_witness :
  reachable (after Sample.streaming)
  ∧ _isLanguageEnabled None Sample.doc_v2 = true
  ∧ _isAtMidWord Sample.doc_v2 Sample.at_end_v2 = Some false
  ∧ _sessions (after Sample.streaming) !! "K1"%string = Some 0%nat
  ∧ store (after Sample.streaming) !! 0%nat = Some Sample.streaming_task
  ∧ documentVersion (session Sample.streaming_task) ≠ version Sample.doc_v2
  ∧ token_fired (on_cancellation (release true) Sample.streaming_task) = true
  ∧ ∃ d, store (provideInlineCompletionItems 1100 None Sample.doc_v2 Sample.at_end_v2
                  (Sample.with_key "K1") 1 (after Sample.streaming)).2
         = [ on_cancellation (release true) Sample.streaming_task;
             {| session :=
                  {| requestUuid := "K1";
                     documentUri := "file:///a.ts";
                     documentVersion := 2;
                     position := Sample.at_end_v2;
                     range := mkRange Sample.at_end_v2 Sample.at_end_v2;
                     cancellation := {| parentToken := 1;
                                        isCancellationRequested := false;
                                        disposeCalls := 0 |};
                     text := "";
                     done := false;
                     error := None |};
                driver := d |} ].
Proof.
  assert (reachable (after Sample.streaming)) as Hr
    by (exists Sample.streaming; vm_compute; reflexivity).
  assert (documentVersion (session Sample.streaming_task) ≠ version Sample.doc_v2)
    as Hv by (simpl; lia).
  assert (store (after Sample.streaming) = [Sample.streaming_task]) as Hstore
    by (vm_compute; reflexivity).
  split_and!; [exact Hr|vm_compute; reflexivity..|exact Hv| |].
  - pose proof (stale_session_replaced 1100 None Sample.doc_v2 Sample.at_end_v2
                  (Sample.with_key "K1") 1 (after Sample.streaming) 0
                  Sample.streaming_task Hr ltac:(vm_compute; reflexivity)
                  ltac:(vm_compute; reflexivity) ltac:(vm_compute; reflexivity)
                  ltac:(vm_compute; reflexivity) Hv)
      as (_ & _ & Hfired & _).
    exact Hfired.
  - pose proof (stale_session_replaced 1100 None Sample.doc_v2 Sample.at_end_v2
                  (Sample.with_key "K1") 1 (after Sample.streaming) 0
                  Sample.streaming_task Hr ltac:(vm_compute; reflexivity)
                  ltac:(vm_compute; reflexivity) ltac:(vm_compute; reflexivity)
                  ltac:(vm_compute; reflexivity) Hv)
      as (_ & _ & _ & _ & _ & _ & _ & d & _ & Hst).
    exists d. rewrite Hst, Hstore. reflexivity.
Defined.

(** What the code does for a session whose [error] is a non-empty string:
    a call that gets as far as the key lookup returns [undefined], and
    afterwards no key of the registry refers to that session object, nor
    will one in any later state.  When the session has the document's
    current version the call does nothing else, so the key is left without a
    session. *)
Theorem errored_session_discarded
    (now : Z) (cfg : EnableConfig) (document : TextDocument) (position : Position)
    (context : InlineCompletionContext) (token : nat) (s : Provider)
    (sid : nat) (t : Task) :
  reachable s →
  _isLanguageEnabled cfg document = true →
  _isAtMidWord document position = Some false →
  _sessions s !! requestKeyOf document position context = Some sid →
  store s !! sid = Some t →
  Js.truthy (error (session t)) = true →
  let key := requestKeyOf document position context in
  let r := provideInlineCompletionItems now cfg document position context token s in
  r.1 = Result None
  ∧ (∀ k, _sessions r.2 !! k ≠ Some sid)
  ∧ (documentVersion (session t) = version document →
     r.2 = _clearSession key true s ∧ _sessions r.2 = delete key (_sessions s))
  ∧ (∀ trace s', run trace r.2 = Some s' → ∀ k, _sessions s' !! k ≠ Some sid).
Proof.
  intros Hr Hl Hm Hk Ht He key r.
  pose proof (reachable_wf _ Hr) as Hwf.
  pose proof (wf_registered _ _ _ _ Hwf Hk Ht) as Hu.
  pose proof (lookup_lt_Some _ _ _ Ht) as Hlt.
  destruct (_clearSession_known key true s sid t Hk Ht) as [Hcm Hcs].
  assert (∀ k, delete key (_sessions s) !! k ≠ Some sid) as Hgone.
  { intros k Hd. apply lookup_delete_Some in Hd as [Hne Hd].
    pose proof (wf_registered _ _ _ _ Hwf Hd Ht). unfold key in *. congruence. }
  assert (r.1 = Result None ∧ (∀ k, _sessions r.2 !! k ≠ Some sid)
          ∧ (documentVersion (session t) = version document →
             r.2 = _clearSession key true s ∧ _sessions r.2 = delete key (_sessions s)))
    as (Hout & Hnone & Hsame).
  { destruct (decide (documentVersion (session t) = version document)) as [Hv|Hv].
    - subst r. rewrite (provide_found _ _ _ _ _ _ _ _ _ Hl Hm Hk Ht Hv), He, Hu.
      fold key. simpl. rewrite Hcm. by split_and!.
    - subst r. rewrite (provide_stale _ _ _ _ _ _ _ _ _ Hl Hm Hk Ht Hv), Hu.
      fold key. simpl. split_and!; [done| |done].
      destruct (create_session_parts now document position key token
                  (_clearSession key true s)) as (d & _ & -> & _).
      rewrite Hcm, Hcs, length_insert. intros k Hi.
      apply lookup_insert_Some in Hi as [[_ Heq]|[_ Hi]]; [lia|by eapply Hgone]. }
  split_and!; try done.
  intros trace s' Hrun.
  assert (wf r.2) as Hwf' by apply (provide_wf _ _ _ _ _ _ _ Hwf).
  eapply dropped_stays_dropped; eauto.
  pose proof (evolves_length _ _ _ _
                (provide_evolves now cfg document position context token s Hwf)).
  fold r in H. lia.
Qed.

Lemma errored_session_discarded_witness :
  reachable (after Sample.rate_limited)
  ∧ _isLanguageEnabled None Sample.doc_v1 = true
  ∧ _isAtMidWord Sample.doc_v1 Sample.at_end_v1 = Some false
  ∧ _sessions (after Sample.rate_limited) !! "K1"%string = Some 0%nat
  ∧ store (after Sample.rate_limited) !! 0%nat = Some Sample.rate_limited_task
  ∧ Js.truthy (error (session Sample.rate_limited_task)) = true
  ∧ (Sample.poll 1200 "K1" 7 (after Sample.rate_limited)).1 = Result None.
Proof.
  assert (reachable (after Sample.rate_limited)) as Hr
    by (by exists Sample.rate_limited).
  split_and!; [exact Hr|vm_compute; reflexivity..|].
  exact (proj1 (errored_session_discarded 1200 None Sample.doc_v1 Sample.at_end_v1
                  (Sample.with_key "K1") 7 (after Sample.rate_limited) 0
                  Sample.rate_limited_task Hr ltac:(vm_compute; reflexivity) ltac:(vm_compute; reflexivity) ltac:(vm_compute; reflexivity) ltac:(vm_compute; reflexivity) ltac:(vm_compute; reflexivity))).
Defined.

(** C1, as the code has it.  Along every run the text of a session object
    only grows in the prefix order, up to and across the return of its
    driver.  A call for a key whose registered session has the document's
    version and no error changes nothing in the provider -- in particular it
    registers no session -- and, when it passes the guards, returns exactly
    the current text of that session ([undefined] while the text is empty).
    Repeated calls therefore show the same text or an extension of it for as
    long as the session stays registered without an error. *)
Theorem text_grows_and_poll_is_stable
    (s1 : Provider) (trace : list Event) (s2 : Provider) (sid : nat) (t1 : Task) :
  reachable s1 → run trace s1 = Some s2 → store s1 !! sid = Some t1 →
  ∃ t2, store s2 !! sid = Some t2
    ∧ is_prefix_of (text (session t1)) (text (session t2))
    ∧ ∀ now cfg document position context token,
        _sessions s2 !! requestKeyOf document position context = Some sid →
        documentVersion (session t2) = version document →
        Js.truthy (error (session t2)) = false →
        let r := provideInlineCompletionItems now cfg document position context token s2 in
        r.2 = s2
        ∧ (_isLanguageEnabled cfg document = true →
           _isAtMidWord document position = Some false →
           r.1 = Result (if Js.truthy_string (text (session t2))
                         then Some (list_of (session t2)) else None)).
Proof.
  intros Hr Hrun Ht1.
  destruct (ev_store _ _ _ _ (run_evolves _ _ _ Hrun (reachable_wf _ Hr)) _ _ Ht1)
    as (t2 & Ht2 & Hle).
  exists t2. split_and!; [done|apply Hle|].
  intros now cfg document position context token Hk Hv He r. split.
  - by eapply provide_current_unchanged.
  - intros Hl Hm. subst r.
    by rewrite (provide_found _ _ _ _ _ _ _ _ _ Hl Hm Hk Ht2 Hv), He.
Qed.

Lemma text_grows_and_poll_is_stable_witness :
  reachable (after Sample.dispatched)
  ∧ run [Delta 0 "ab"] (after Sample.dispatched) = Some (after Sample.streaming)
  ∧ store (after Sample.dispatched) !! 0%nat = Some Sample.dispatched_task
  ∧ ∃ t2, store (after Sample.streaming) !! 0%nat = Some t2
          ∧ is_prefix_of (text (session Sample.dispatched_task)) (text (session t2)).
Proof.
  assert (reachable (after Sample.dispatched)) as Hr by (by exists Sample.dispatched).
  split_and!; [exact Hr|vm_compute; reflexivity..|].
  destruct (text_grows_and_poll_is_stable (after Sample.dispatched) [Delta 0 "ab"]
              (after Sample.streaming) 0 Sample.dispatched_task Hr ltac:(vm_compute; reflexivity) ltac:(vm_compute; reflexivity))
    as (t2 & Ht2 & Hle & _).
  by exists t2.
Defined.

(** C1, as the spec has it, fails.  Session 0 streams under [K1] and a call
    shows its text [ab].  The remote call then fails with [rate_limited].
    The next call with the same key and the same document version shows
    nothing and drops the session; the call after that registers a second
    session, object 1, under [K1]. *)
Lemma poll_after_error_counterexample :
  run Sample.streaming new_provider = Some (after Sample.streaming)
  ∧ shown (Sample.poll 1010 "K1" 1 (after Sample.streaming)).1 = Some "ab"%string
  ∧ run Sample.rate_limited new_provider = Some (after Sample.rate_limited)
  ∧ _sessions (after Sample.rate_limited) !! "K1"%string = Some 0%nat
  ∧ shown (Sample.poll 1020 "K1" 2 (after Sample.rate_limited)).1 = None
  ∧ _sessions (Sample.poll 1020 "K1" 2 (after Sample.rate_limited)).2 !! "K1"%string
    = None
  ∧ _sessions
      (Sample.poll 1030 "K1" 3 (Sample.poll 1020 "K1" 2 (after Sample.rate_limited)).2).2
      !! "K1"%string = Some 1%nat.
Proof. split_and!; vm_compute; reflexivity. Qed.

(** C8 fails on the code.  The remote call of session 0 fails with the empty
    string as its reason, after the text [ab]: the driver records the
    failure, [error] is the empty string, and leaves on the failure path.
    The test [if (session.error)] takes the empty string for no error: the
    next call with the same key and document version does not remove the
    session -- it shows the text [ab], and the session stays registered under
    [K1], for this call and for the one after. *)
Theorem empty_error_is_never_discarded :
  run Sample.failed_without_reason new_provider = Some (after Sample.failed_without_reason)
  ∧ _sessions (after Sample.failed_without_reason) !! "K1"%string = Some 0%nat
  ∧ (error ∘ session) <$> store (after Sample.failed_without_reason) !! 0%nat
    = Some (Some ""%string)
  ∧ driver <$> store (after Sample.failed_without_reason) !! 0%nat
    = Some (Returned (ExitFailed ""))
  ∧ Js.truthy (Some ""%string) = false
  ∧ shown (Sample.poll 1200 "K1" 7 (after Sample.failed_without_reason)).1
    = Some "ab"%string
  ∧ (Sample.poll 1200 "K1" 7 (after Sample.failed_without_reason)).2
    = after Sample.failed_without_reason
  ∧ _sessions
      (Sample.poll 1300 "K1" 8
         (Sample.poll 1200 "K1" 7 (after Sample.failed_without_reason)).2).2
      !! "K1"%string = Some 0%nat.
Proof. split_and!; vm_compute; reflexivity. Qed.

(** * Further properties of the code *)

(** ** Strings *)

Lemma startsWith_split (s p : string) :
  startsWith s p = true ↔ s = p +:+ js_substring_from (String.length p) s.
Proof.
  unfold startsWith. revert s. induction p as [|c p IH]; intros s.
  - by destruct s.
  - destruct s as [|c' s]; [done|].
    change (String.prefix (String c p) (String c' s))
      with (if Ascii.ascii_dec c c' then String.prefix p s else false).
    change (String c p +:+ js_substring_from (String.length (String c p)) (String c' s))
      with (String c (p +:+ js_substring_from (String.length p) s)).
    destruct (Ascii.ascii_dec c c') as [->|Hne].
    + rewrite IH. split; [by intros <-|by intros [= <-]].
    + split; [done|]. intros [= ? _]. by destruct Hne.
Qed.

Lemma js_substring_from_append (p s : string) :
  js_substring_from (String.length p) (p +:+ s) = s.
Proof. induction p as [|c p IH]; [by destruct s|exact IH]. Qed.

Lemma length_append (a b : string) :
  String.length (a +:+ b) = (String.length a + String.length b)%nat.
Proof.
  induction a as [|c a IH]; [done|].
  change (S (String.length (a +:+ b)) = S (String.length a + String.length b)).
  by rewrite IH.
Qed.

Lemma js_slice_to_split (n : nat) (s : string) :
  s = js_slice_to n s +:+ js_substring_from n s
  ∧ String.length (js_slice_to n s) = Nat.min n (String.length s).
Proof.
  revert s. induction n as [|n IH]; intros s; [by destruct s|].
  destruct s as [|c s]; [done|]. destruct (IH s) as [Hs Hl]. split.
  - change (String c s = String c (js_slice_to n s +:+ js_substring_from n s)).
    by rewrite <- Hs.
  - simpl. by rewrite Hl.
Qed.

Lemma js_substring_from_split (n : nat) (s : string) :
  (n ≤ String.length s)%nat →
  s = js_slice_to n s +:+ js_substring_from n s
  ∧ String.length (js_substring_from n s) = (String.length s - n)%nat.
Proof.
  intros Hn. destruct (js_slice_to_split n s) as [Hs Hl]. split; [done|].
  apply (f_equal String.length) in Hs. rewrite length_append, Hl in Hs. lia.
Qed.

(** ** The language model server *)

(** X1.  [selectEndpoint]: without a requested model (undefined or the
    empty string) the first endpoint is chosen, if there is one.  With a
    requested model the choice is the first endpoint of that family and no
    other endpoint is ever substituted: when no family matches, the result
    is [undefined] even though endpoints are available. *)
Theorem selectEndpoint_exact_or_first
    (endpoints : list ChatEndpoint) (requestedModel : option string) :
  if Js.truthy requestedModel then
    match selectEndpoint endpoints requestedModel with
    | Some e =>
      Some (family e) = requestedModel
      ∧ ∃ before rest, endpoints = before ++ e :: rest
                       ∧ ∀ x, x ∈ before → Some (family x) ≠ requestedModel
    | None => ∀ x, x ∈ endpoints → Some (family x) ≠ requestedModel
    end
  else selectEndpoint endpoints requestedModel = head endpoints.
Proof.
  unfold selectEndpoint. destruct (Js.truthy requestedModel); [|done].
  induction endpoints as [|e endpoints IH]; simpl.
  - intros x Hx. by apply elem_of_nil in Hx.
  - destruct (bool_decide (Some (family e) = requestedModel)) eqn:He.
    + apply bool_decide_eq_true in He. split; [done|].
      exists [], endpoints. split; [done|]. intros x Hx. by apply elem_of_nil in Hx.
    + apply bool_decide_eq_false in He.
      destruct (List.find _ endpoints) as [e'|].
      * destruct IH as (Hf & before & rest & -> & Hb). split; [done|].
        exists (e :: before), rest. split; [done|].
        intros x [->|Hx]%elem_of_cons; auto.
      * intros x [->|Hx]%elem_of_cons; auto.
Qed.

(** X2.  The server callback hands a request to
    [handleResponsesAPIRequest] exactly when it is a POST to one of the
    three response paths, its body could be read, and its authorization
    header is the word [Bearer], one space and the nonce of this server.
    Every other request is answered without reaching a model. *)
Theorem serve_forwards_iff_authorized
    (nonce : string) (req : HttpRequest) (read : BodyRead) (body : string) :
  serve nonce req read = HandleResponses body
  ↔ method req = Some "POST"%string
    ∧ is_responses_url (url req) = true
    ∧ read = BodyOk body
    ∧ authorization req = Some ("Bearer " +:+ nonce).
Proof.
  unfold serve. split.
  - intros Hs.
    destruct (bool_decide (method req = Some "OPTIONS"%string)); [discriminate|].
    destruct (bool_decide (method req = Some "POST"%string)) eqn:Hpost;
      cbn [andb] in Hs;
      [|by destruct (bool_decide (method req = Some "GET"%string) && _)].
    destruct (is_responses_url (url req));
      [|by destruct (bool_decide (method req = Some "GET"%string) && _)].
    apply bool_decide_eq_true in Hpost.
    destruct read as [b|]; [|discriminate].
    destruct (bool_decide (_ ≠ Some nonce)) eqn:Hauth; [discriminate|].
    apply bool_decide_eq_false in Hauth. apply dec_stable in Hauth.
    injection Hs as ->. split_and!; try done.
    destruct (authorization req) as [h|]; [|discriminate].
    destruct (startsWith h "Bearer ") eqn:Hh; [|discriminate].
    apply startsWith_split in Hh. rewrite Hh. do 2 f_equal. by injection Hauth.
  - intros (Hm & Hu & -> & Ha). rewrite Hm, Hu, Ha.
    rewrite (bool_decide_eq_false_2 (Some "POST"%string = Some "OPTIONS"%string))
      by discriminate.
    rewrite (bool_decide_eq_true_2 (Some "POST"%string = Some "POST"%string)) by done.
    cbn [andb].
    assert (startsWith ("Bearer " +:+ nonce) "Bearer " = true) as ->.
    { apply startsWith_split. by rewrite js_substring_from_append. }
    rewrite (js_substring_from_append "Bearer " nonce).
    by rewrite bool_decide_eq_false_2 by (by intros []).
Qed.

(** X3.  A readable POST on a response path whose authorization header is
    not the expected one -- missing, without the [Bearer] prefix, or with
    another key -- is answered with status 401 and the error
    [Invalid authentication]. *)
Theorem serve_rejects_bad_key
    (nonce : string) (req : HttpRequest) (body : string) :
  method req = Some "POST"%string →
  is_responses_url (url req) = true →
  authorization req ≠ Some ("Bearer " +:+ nonce) →
  serve nonce req (BodyOk body)
  = Respond 401 (ErrorPayload "Invalid authentication" None).
Proof.
  intros Hm Hu Ha.
  destruct (serve nonce req (BodyOk body)) as [status payload|b] eqn:Hs.
  - unfold serve in Hs. rewrite Hm, Hu in Hs.
    rewrite (bool_decide_eq_false_2 (Some "POST"%string = Some "OPTIONS"%string)) in Hs
      by discriminate.
    rewrite (bool_decide_eq_true_2 (Some "POST"%string = Some "POST"%string)) in Hs
      by done.
    cbn [andb] in Hs.
    destruct (bool_decide (_ ≠ Some nonce)) eqn:Hauth; [done|discriminate].
  - apply serve_forwards_iff_authorized in Hs. by destruct Hs as (_ & _ & _ & ?).
Qed.

Lemma serve_rejects_bad_key_witness :
  method (mkRequest (Some "POST"%string) (Some "/v1/responses"%string)
            (Some "Bearer guess"%string)) = Some "POST"%string
  ∧ serve "vscode-lm-1" (mkRequest (Some "POST"%string) (Some "/v1/responses"%string)
                           (Some "Bearer guess"%string)) (BodyOk "{}")
    = Respond 401 (ErrorPayload "Invalid authentication" None).
Proof.
  split; [reflexivity|].
  apply (serve_rejects_bad_key "vscode-lm-1"
           (mkRequest (Some "POST"%string) (Some "/v1/responses"%string)
              (Some "Bearer guess"%string)) "{}");
    [reflexivity|reflexivity|vm_compute; discriminate].
Defined.

(** X4.  Whether a request counts as initiated by the user is decided by
    the last input alone: a non-empty string input always counts, an empty
    string and an empty array never do, and for an array only its last item
    matters -- a string, or an object of type [message] with role [user]. *)
Theorem isUserInitiatedMessage_last_only (m : option string) :
  (∀ s, isUserInitiatedMessage (mkParams m (Some (InputText s)))
        = negb (String.eqb s ""))
  ∧ isUserInitiatedMessage (mkParams m None) = false
  ∧ isUserInitiatedMessage (mkParams m (Some (InputItems []))) = false
  ∧ (∀ l x, isUserInitiatedMessage (mkParams m (Some (InputItems (l ++ [x]))))
            = match x with
              | ItemText _ => true
              | ItemObject ty role =>
                bool_decide (ty = Some "message"%string)
                && bool_decide (role = Some "user"%string)
              end).
Proof.
  split_and!; try done.
  - by intros [|c s].
  - intros l x. unfold isUserInitiatedMessage, lastMessage. simpl.
    by rewrite last_snoc.
Qed.

(** X5.  [handleResponsesAPIRequest] streams from an endpoint only if that
    endpoint is one of the available ones and, when the request names a
    model, has that model as its family; a body that names a model of no
    available family is answered with 404, and so is every request when no
    endpoint is available. *)
Theorem responses_stream_from_requested_family
    (requestBody : ResponseCreateParams) (endpoints : list ChatEndpoint) :
  match handleResponsesAPIRequest (inl requestBody) (inl endpoints) with
  | Stream e userInitiated =>
    e ∈ endpoints
    ∧ (Js.truthy (model requestBody) = true → Some (family e) = model requestBody)
    ∧ (Js.truthy (model requestBody) = false → head endpoints = Some e)
    ∧ userInitiated = isUserInitiatedMessage requestBody
  | Fail status error details =>
    status = 404%nat
    ∧ (endpoints = []
       ∨ (Js.truthy (model requestBody) = true
          ∧ ∀ x, x ∈ endpoints → Some (family x) ≠ model requestBody))
  end.
Proof.
  unfold handleResponsesAPIRequest.
  pose proof (selectEndpoint_exact_or_first endpoints (model requestBody)) as Hsel.
  destruct endpoints as [|e0 endpoints]; [by split; [|left]|].
  change (length (e0 :: endpoints) =? 0)%nat with false. cbv iota.
  destruct (Js.truthy (model requestBody)) eqn:Ht.
  - destruct (selectEndpoint _ _) as [e|].
    + destruct Hsel as (Hf & before & rest & Heq & _). split_and!; try done.
      rewrite Heq. apply elem_of_app. right. apply elem_of_cons. by left.
    + split; [done|]. right. by split.
  - rewrite Hsel. simpl. split_and!; try done. apply elem_of_cons. by left.
Qed.

(** X6.  The pass-through loop writes the upstream chunks unchanged and in
    order, up to the first chunk at whose arrival the token had fired:
    what reaches the client is always a prefix of what the model sent, and
    all of it when the token never fires. *)
Theorem pass_through_writes_prefix (cancelled : nat → bool) (chunks : list string) :
  ∃ k, pass_through cancelled 0 chunks [] = take k chunks
       ∧ (∀ i, (i < k)%nat → cancelled i = false)
       ∧ ((k < length chunks)%nat → cancelled k = true)
       ∧ ((∀ i, cancelled i = false) → pass_through cancelled 0 chunks [] = chunks).
Proof.
  assert (∀ chunks i written,
            ∃ k, pass_through cancelled i chunks written = written ++ take k chunks
                 ∧ (k ≤ length chunks)%nat
                 ∧ (∀ j, (j < k)%nat → cancelled (i + j)%nat = false)
                 ∧ ((k < length chunks)%nat → cancelled (i + k)%nat = true)) as Hgen.
  { clear chunks. induction chunks as [|c chunks IH]; intros i written; simpl.
    - exists 0%nat. rewrite app_nil_r. split_and!; [done|lia|lia|lia].
    - destruct (cancelled i) eqn:Hc.
      + exists 0%nat. rewrite app_nil_r, Nat.add_0_r. split_and!; [done|lia|lia|done].
      + destruct (IH (S i) (written ++ [c])) as (k & -> & Hk & Hlt & Hge).
        exists (S k). rewrite <- app_assoc. split_and!; [done|simpl; lia| |].
        * intros [|j] Hj; [by rewrite Nat.add_0_r|].
          replace (i + S j)%nat with (S i + j)%nat by lia. apply Hlt. lia.
        * intros Hk'. replace (i + S k)%nat with (S i + k)%nat by lia.
          apply Hge. simpl in Hk'. lia. }
  destruct (Hgen chunks 0%nat []) as (k & Hk & Hle & Hlt & Hge).
  exists k. split_and!; try done.
  intros Hnever. rewrite Hk. simpl.
  destruct (decide (k < length chunks)%nat) as [Hklt|Hkge].
  - specialize (Hge Hklt). by rewrite Hnever in Hge.
  - by rewrite take_ge by lia.
Qed.

(** ** The context window *)

(** X7.  [_extractContext] keeps the text next to the cursor: the prefix is
    the tail of the text before the position, of length the smaller of
    4000 and the length of that text; the suffix is the head of the text
    after the position, of length the smaller of 2000 and the length of
    that text.  Nothing is dropped from a text within its bound. *)
Theorem _extractContext_window
    (getText : Range → string) (document : TextDocument) (position : Position) :
  let prefixFull := getText (mkRange (mkPosition 0 0) position) in
  let suffixFull := getText (mkRange position (document_end document)) in
  let r := _extractContext getText document position in
  String.length r.1 = Nat.min MAX_PREFIX_CHARS (String.length prefixFull)
  ∧ (∃ dropped, prefixFull = dropped +:+ r.1)
  ∧ String.length r.2 = Nat.min MAX_SUFFIX_CHARS (String.length suffixFull)
  ∧ (∃ dropped, suffixFull = r.2 +:+ dropped).
Proof.
  intros prefixFull suffixFull r. subst r. unfold _extractContext.
  fold prefixFull suffixFull. cbn [fst snd].
  generalize MAX_PREFIX_CHARS MAX_SUFFIX_CHARS. intros np ns.
  destruct (js_slice_to_split ns suffixFull) as [Hs Hsl].
  unfold js_slice_last.
  destruct (js_substring_from_split (String.length prefixFull - np) prefixFull)
    as [Hp Hpl]; [lia|].
  split_and!; [lia|by eexists|done|by eexists].
Qed.

(** ** The guards of the polling surface *)

(** X8.  [_isLanguageEnabled]: without a configured value every language is
    enabled.  Otherwise the entry of the document's language decides; when
    there is none, or its value is undefined, the entry of the wildcard
    decides; when that is missing or undefined too, the language is enabled.
    The wildcard entry the code adds to the map never changes the answer. *)
Theorem _isLanguageEnabled_entry_then_wildcard
    (enabledLanguages : EnableConfig) (document : TextDocument) :
  _isLanguageEnabled enabledLanguages document
  = match enabledLanguages with
    | None => true
    | Some entries =>
      match mjoin (entries !! languageId document) with
      | Some enabled => enabled
      | None =>
        match mjoin (entries !! "*"%string) with
        | Some enabled => enabled
        | None => true
        end
      end
    end.
Proof.
  destruct enabledLanguages as [entries|]; [|done]. unfold _isLanguageEnabled, Js.nullish.
  destruct (entries !! "*"%string) as [star|] eqn:Hstar.
  - rewrite Hstar. by destruct (mjoin (entries !! languageId document)), (mjoin (Some star)).
  - destruct (decide (languageId document = "*"%string)) as [->|Hne].
    + by rewrite lookup_insert_eq, Hstar.
    + rewrite lookup_insert_ne by done. rewrite lookup_insert_eq.
      by destruct (mjoin (entries !! languageId document)).
Qed.

Lemma string_get_None (n : nat) (l : string) :
  String.get n l = None ↔ (String.length l ≤ n)%nat.
Proof.
  revert n. induction l as [|c l IH]; intros n; simpl.
  - split; [lia|done].
  - destruct n as [|n]; [split; [done|lia]|]. rewrite IH. lia.
Qed.

(** X9.  [_isAtMidWord] raises when the document has no such line.
    Otherwise it answers [true] exactly when the line has a character at
    the position and that character is a letter, a digit or an underscore;
    at the end of the line and beyond it the answer is [false]. *)
Theorem _isAtMidWord_next_character (document : TextDocument) (position : Position) :
  match lines document !! line position with
  | None => _isAtMidWord document position = None
  | Some l =>
    ∃ b, _isAtMidWord document position = Some b
         ∧ (b = true ↔ ∃ c, String.get (character position) l = Some c
                            ∧ Js.is_word_char c = true)
         ∧ ((String.length l ≤ character position)%nat → b = false)
  end.
Proof.
  unfold _isAtMidWord. destruct (lines document !! line position) as [l|]; [|done].
  destruct (String.length l <=? character position)%nat eqn:Hlen.
  - apply Nat.leb_le in Hlen. exists false. split_and!; [done| |done].
    split; [done|]. intros (c & Hc & _).
    apply string_get_None in Hlen. congruence.
  - apply Nat.leb_gt in Hlen.
    destruct (String.get (character position) l) as [c|] eqn:Hc.
    + exists (Js.is_word_char c). split_and!; [done| |lia].
      split; [by exists c|]. by intros (c' & [= <-] & ?).
    + apply string_get_None in Hc. lia.
Qed.

(** X10.  A call that a guard turns away -- the language is disabled, the
    cursor is in the middle of a word, or the line does not exist -- is
    invisible: it creates, clears and cancels nothing, whatever is
    registered for its key, and a run with such a call anywhere in it ends
    in the same state as the run without it. *)
Theorem suppressed_call_is_invisible
    (now : Z) (cfg : EnableConfig) (document : TextDocument) (position : Position)
    (context : InlineCompletionContext) (token : nat) :
  _isLanguageEnabled cfg document = false ∨ _isAtMidWord document position ≠ Some false →
  (∀ s, ∃ o, provideInlineCompletionItems now cfg document position context token s = (o, s)
             ∧ shown o = None)
  ∧ ∀ before rest s,
      run (before ++ Provide now cfg document position context token :: rest) s
      = run (before ++ rest) s.
Proof.
  intros Hguard.
  assert (∀ s, ∃ o, provideInlineCompletionItems now cfg document position context token s
                    = (o, s) ∧ shown o = None) as Hsame.
  { intros s. unfold provideInlineCompletionItems.
    destruct (_isLanguageEnabled cfg document); simpl; [|by eexists].
    destruct (_isAtMidWord document position) as [[]|]; [by eexists| |by eexists].
    by destruct Hguard. }
  split; [done|]. intros before rest s. rewrite !run_app.
  destruct (run before s) as [s1|]; [|done]. simpl.
  destruct (Hsame s1) as (o & -> & _). done.
Qed.

Lemma suppressed_call_is_invisible_witness :
  _isAtMidWord Sample.doc_v1 (mkPosition 0 1) ≠ Some false
  ∧ run (Sample.streaming ++ Provide 1100 None Sample.doc_v1 (mkPosition 0 1)
                               (Sample.with_key "K1") 9 :: [Resolved 0 Canceled])
        new_provider
    = run (Sample.streaming ++ [Resolved 0 Canceled]) new_provider.
Proof.
  assert (_isAtMidWord Sample.doc_v1 (mkPosition 0 1) ≠ Some false) as Hmid
    by (vm_compute; discriminate).
  split; [exact Hmid|].
  exact (proj2 (suppressed_call_is_invisible 1100 None Sample.doc_v1 (mkPosition 0 1)
                  (Sample.with_key "K1") 9 (or_intror Hmid))
           Sample.streaming [Resolved 0 Canceled] new_provider).
Defined.

(** X11.  After a call that passes the guards, the session registered for
    the key of the call, if there is one, has the version of the document
    the call was made with: a call never leaves a stale session behind. *)
Theorem call_leaves_no_stale_session
    (now : Z) (cfg : EnableConfig) (document : TextDocument) (position : Position)
    (context : InlineCompletionContext) (token : nat) (s : Provider) (sid : nat) (t : Task) :
  reachable s →
  _isLanguageEnabled cfg document = true →
  _isAtMidWord document position = Some false →
  let s' := (provideInlineCompletionItems now cfg document position context token s).2 in
  _sessions s' !! requestKeyOf document position context = Some sid →
  store s' !! sid = Some t →
  documentVersion (session t) = version document.
Proof.
  intros Hr Hl Hm s'. subst s'. pose proof (reachable_wf _ Hr) as Hwf.
  set (key := requestKeyOf document position context).
  assert (∀ s0, _sessions (create_session now document position key token s0) !! key
                = Some sid →
                store (create_session now document position key token s0) !! sid = Some t →
                documentVersion (session t) = version document) as Hnew.
  { intros s0 Hk Ht.
    destruct (create_session_parts now document position key token s0)
      as (d & _ & Hreg & Hst & _).
    rewrite Hreg, lookup_insert_eq in Hk. injection Hk as <-.
    rewrite Hst, lookup_app_r, Nat.sub_diag in Ht by done. by injection Ht as <-. }
  destruct (_sessions s !! key) as [sid0|] eqn:Hk.
  - destruct (wf_ref _ _ Hwf _ _ Hk) as (t0 & Ht0 & Hu).
    destruct (decide (documentVersion (session t0) = version document)) as [Hv|Hv].
    + rewrite (provide_found _ _ _ _ _ _ _ _ _ Hl Hm Hk Ht0 Hv).
      destruct (Js.truthy (error (session t0))); simpl.
      * rewrite Hu. fold key. by rewrite _clearSession_removes.
      * intros Hk' Ht'. congruence.
    + rewrite (provide_stale _ _ _ _ _ _ _ _ _ Hl Hm Hk Ht0 Hv). simpl. apply Hnew.
  - rewrite (provide_not_found _ _ _ _ _ _ _ Hl Hm Hk). simpl. apply Hnew.
Qed.

Lemma call_leaves_no_stale_session_witness :
  reachable (after Sample.streaming)
  ∧ _isLanguageEnabled None Sample.doc_v2 = true
  ∧ _isAtMidWord Sample.doc_v2 Sample.at_end_v2 = Some false
  ∧ documentVersion (session (mkTask (fresh_session Sample.doc_v2 Sample.at_end_v2 "K1" 1)
                                AwaitThrottleReturn)) = 2.
Proof.
  assert (reachable (after Sample.streaming)) as Hr by (exists Sample.streaming; vm_compute; reflexivity).
  split_and!; [exact Hr|vm_compute; reflexivity..|].
  exact (call_leaves_no_stale_session 1100 None Sample.doc_v2 Sample.at_end_v2
           (Sample.with_key "K1") 1 (after Sample.streaming) 1
           (mkTask (fresh_session Sample.doc_v2 Sample.at_end_v2 "K1" 1) AwaitThrottleReturn)
           Hr ltac:(vm_compute; reflexivity) ltac:(vm_compute; reflexivity)
           ltac:(vm_compute; reflexivity) ltac:(vm_compute; reflexivity)).
Defined.

(** ** The registry and what the host is shown *)

(** X12.  In every reachable state the registry is injective and agrees
    with the sessions: a registered session object carries the key it is
    registered under as its [requestUuid], so no object is registered under
    two keys. *)
Theorem registry_is_injective (s : Provider) (k1 k2 : string) (sid : nat) :
  reachable s →
  _sessions s !! k1 = Some sid → _sessions s !! k2 = Some sid →
  k1 = k2 ∧ ∃ t, store s !! sid = Some t ∧ requestUuid (session t) = k1.
Proof.
  intros Hr H1 H2. pose proof (reachable_wf _ Hr) as Hwf.
  destruct (wf_ref _ _ Hwf _ _ H1) as (t & Ht & Hu).
  pose proof (wf_registered _ _ _ _ Hwf H2 Ht). split; [congruence|eauto].
Qed.

Lemma registry_is_injective_witness :
  reachable (after Sample.streaming)
  ∧ _sessions (after Sample.streaming) !! "K1"%string = Some 0%nat
  ∧ ∃ t, store (after Sample.streaming) !! 0%nat = Some t
         ∧ requestUuid (session t) = "K1"%string.
Proof.
  assert (reachable (after Sample.streaming)) as Hr by (exists Sample.streaming; vm_compute; reflexivity).
  split_and!; [exact Hr|vm_compute; reflexivity|].
  exact (proj2 (registry_is_injective (after Sample.streaming) "K1" "K1" 0 Hr
                  ltac:(vm_compute; reflexivity) ltac:(vm_compute; reflexivity))).
Defined.

(** X13.  What a call shows can be handed back.  When a call in a reachable
    state returns a list, the provider is unchanged; the list has exactly
    one item, whose text is the non-empty text of the session registered
    for the key, whose range is the range of that session and whose
    correlation id is the key.  Unless the key is the empty string, the end
    of lifetime of that item, or of the list, clears exactly that session,
    without cancelling. *)
Theorem shown_list_clears_its_session
    (now : Z) (cfg : EnableConfig) (document : TextDocument) (position : Position)
    (context : InlineCompletionContext) (token : nat) (s s' : Provider)
    (l : InlineCompletionList) :
  reachable s →
  provideInlineCompletionItems now cfg document position context token s
  = (Result (Some l), s') →
  let key := requestKeyOf document position context in
  s' = s
  ∧ ∃ sid t, _sessions s !! key = Some sid ∧ store s !! sid = Some t
      ∧ Js.truthy_string (text (session t)) = true
      ∧ l = {| items := [ {| insertText := text (session t);
                             item_range := range (session t);
                             correlationId := Some key |} ];
               enableForwardStability := true |}
      ∧ (Js.truthy_string key = true →
         handleListEndOfLifetime l s = _clearSession key false s
         ∧ (∀ item, item ∈ items l → handleEndOfLifetime item s = _clearSession key false s)
         ∧ _sessions (_clearSession key false s) = delete key (_sessions s)
         ∧ store (_clearSession key false s)
           = <[sid := on_cancellation cts_dispose t]> (store s)).
Proof.
  intros Hr Hp key. pose proof (reachable_wf _ Hr) as Hwf.
  unfold provideInlineCompletionItems in Hp. fold key in Hp.
  destruct (negb (_isLanguageEnabled cfg document)); [discriminate|].
  destruct (_isAtMidWord document position) as [[]|]; try discriminate.
  destruct (session_of key s) as [t|] eqn:Hs; [|discriminate].
  destruct (session_of_Some _ _ _ Hwf Hs) as (sid & Hk & Ht & Hu).
  destruct (negb (documentVersion (session t) =? version document)); [discriminate|].
  destruct (Js.truthy (error (session t))); [discriminate|].
  destruct (Js.truthy_string (text (session t))) eqn:Htext; [|discriminate].
  simpl in Hp. injection Hp as <- <-. split; [done|].
  exists sid, t. split_and!; try done.
  - unfold list_of. by rewrite Hu.
  - intros Hkey.
    assert (∀ item, item ∈ items (list_of (session t)) →
                    handleEndOfLifetime item s = _clearSession key false s) as Hitem.
    { intros item Hin. apply list_elem_of_singleton in Hin as ->.
      unfold handleEndOfLifetime. simpl. by rewrite Hu, Hkey. }
    split_and!; [|done|..].
    + unfold handleListEndOfLifetime. simpl. by rewrite Hu, Hkey.
    + exact (proj1 (_clearSession_known key false s sid t Hk Ht)).
    + exact (proj2 (_clearSession_known key false s sid t Hk Ht)).
Qed.

Lemma shown_list_clears_its_session_witness :
  reachable (after Sample.streaming)
  ∧ Sample.poll 1010 "K1" 1 (after Sample.streaming)
    = (Result (Some (list_of (session Sample.streaming_task))), after Sample.streaming)
  ∧ ∃ sid t, _sessions (after Sample.streaming) !! "K1"%string = Some sid
             ∧ store (after Sample.streaming) !! sid = Some t.
Proof.
  assert (reachable (after Sample.streaming)) as Hr by (exists Sample.streaming; vm_compute; reflexivity).
  assert (Sample.poll 1010 "K1" 1 (after Sample.streaming)
          = (Result (Some (list_of (session Sample.streaming_task))),
             after Sample.streaming)) as Hp by (vm_compute; reflexivity).
  split_and!; [exact Hr|exact Hp|].
  destruct (shown_list_clears_its_session 1010 None Sample.doc_v1 Sample.at_end_v1
              (Sample.with_key "K1") 1 (after Sample.streaming) (after Sample.streaming)
              (list_of (session Sample.streaming_task)) Hr Hp)
    as (_ & sid & t & Hk & Ht & _).
  by exists sid, t.
Defined.

(** ** The host token *)

(** X14.  When a host token fires, every key whose listener was attached to
    that token loses its session -- whichever session is registered under
    the key by then, also one created by a later call with another token --
    all other keys keep theirs, the listeners of the token are gone and the
    listeners of other tokens stay.  No request is dispatched and the
    throttle timestamp is not touched. *)
Theorem token_cancelled_clears_attached_keys (token : nat) (s : Provider) :
  (∀ k, (token, k) ∈ tokenListeners s → _sessions (token_cancelled token s) !! k = None)
  ∧ (∀ k, (token, k) ∉ tokenListeners s →
          _sessions (token_cancelled token s) !! k = _sessions s !! k)
  ∧ tokenListeners (token_cancelled token s)
    = filter (λ p, p.1 ≠ token) (tokenListeners s)
  ∧ dispatches (token_cancelled token s) = dispatches s
  ∧ _lastRequestTimestamp (token_cancelled token s) = _lastRequestTimestamp s.
Proof.
  unfold token_cancelled. simpl.
  set (s1 := set_store (cancel_children token (store s)) s).
  destruct (run_listeners_frame token (tokenListeners s) s1) as (Hl & Hd & Ht).
  split_and!.
  - intros k Hin. by apply (run_listeners_removes token).
  - intros k Hnin. by rewrite run_listeners_untouched.
  - by rewrite Hl.
  - apply token_cancelled_frame.
  - apply token_cancelled_frame.
Qed.

(** ** The throttle *)

(** X15.  A call that finds the last request less than 75 ms old suspends
    with the deadline 75 ms after that request and leaves the timestamp
    alone; any other call stamps the current time at once.  A suspended
    driver whose token has not fired resumes no earlier than its deadline:
    it leaves the throttle at least 75 ms after the request it measured
    against. *)
Theorem throttle_waits_for_the_measured_request
    (now : Z) (s : Provider) (sid : nat) (t : Task) (deadline now' : Z) (s' : Provider) :
  (if now - _lastRequestTimestamp s <? MIN_REQUEST_INTERVAL
   then _requestCompletion_start now s
        = (AwaitThrottleTimer (_lastRequestTimestamp s + MIN_REQUEST_INTERVAL), s)
   else _requestCompletion_start now s = (AwaitThrottleReturn, _throttle_leave now s))
  ∧ (store s !! sid = Some t → driver t = AwaitThrottleTimer deadline →
     token_fired t = false →
     driver_throttle_settled now' sid s = Some s' →
     deadline ≤ now' ∧ _lastRequestTimestamp s' = now').
Proof.
  split.
  - unfold _requestCompletion_start, _throttle_enter, MIN_REQUEST_INTERVAL.
    destruct (now - _lastRequestTimestamp s <? 75) eqn:Hlt.
    + apply Z.ltb_lt in Hlt.
      rewrite (proj2 (Z.ltb_lt 0 (75 - (now - _lastRequestTimestamp s)))) by lia.
      do 2 f_equal. lia.
    + apply Z.ltb_ge in Hlt.
      by rewrite (proj2 (Z.ltb_ge 0 (75 - (now - _lastRequestTimestamp s)))) by lia.
  - intros Ht Hd Hf. unfold driver_throttle_settled, raceCancellation_settled.
    rewrite Ht, Hd, Hf, orb_false_r.
    destruct (deadline <=? now') eqn:Hle; [|discriminate].
    intros [= <-]. split; [by apply Z.leb_le|done].
Qed.

(** X16.  A delta that arrives after the token of the session has fired is
    dropped: the session object keeps its text and every other field, no
    change notification is scheduled, and the transport is told to stop, so
    that no later delta is accepted for this session. *)
Theorem delta_after_cancel_is_dropped
    (sid : nat) (deltaText : string) (s s' : Provider) (t : Task) :
  store s !! sid = Some t → token_fired t = true →
  finishedCb sid deltaText s = Some s' →
  (∃ t', store s' !! sid = Some t' ∧ session t' = session t)
  ∧ _sessions s' = _sessions s
  ∧ didChangeTriggers s' = didChangeTriggers s
  ∧ ∀ later, finishedCb sid later s' = None.
Proof.
  intros Ht Hf. unfold finishedCb. rewrite Ht.
  pose proof (lookup_lt_Some _ _ _ Ht) as Hlt.
  destruct (driver t) as [| | |cumulative [|]|]; try discriminate.
  rewrite Hf. intros [= <-]. simpl.
  rewrite list_lookup_insert_eq by done. split_and!; try done.
  by eexists.
Qed.

Lemma delta_after_cancel_is_dropped_witness :
  store (after Sample.cancelled_streaming) !! 0%nat = Some Sample.cancelled_streaming_task
  ∧ token_fired Sample.cancelled_streaming_task = true
  ∧ finishedCb 0 "cd" (after Sample.cancelled_streaming)
    = Some (after (Sample.cancelled_streaming ++ [Delta 0 "cd"]))
  ∧ didChangeTriggers (after (Sample.cancelled_streaming ++ [Delta 0 "cd"]))
    = didChangeTriggers (after Sample.cancelled_streaming).
Proof.
  split_and!; [vm_compute; reflexivity..|].
  exact (proj1 (proj2 (proj2
           (delta_after_cancel_is_dropped 0 "cd" (after Sample.cancelled_streaming)
              (after (Sample.cancelled_streaming ++ [Delta 0 "cd"]))
              Sample.cancelled_streaming_task
              ltac:(vm_compute; reflexivity) ltac:(vm_compute; reflexivity)
              ltac:(vm_compute; reflexivity))))).
Defined.

(** ** What the host and the drivers can and cannot change *)

(** X17.  Terminal states are sinks.  Once the driver of a session has
    returned, no event changes its text, [done], [error] or the exit path
    of the driver any more: later calls of the host can only dispose or
    cancel the handle of the session, and no callback of its remote request
    is accepted. *)
Theorem returned_session_is_final
    (s : Provider) (trace : list Event) (s' : Provider) (sid : nat) (t : Task) :
  reachable s → run trace s = Some s' →
  store s !! sid = Some t → returned t = true →
  ∃ t', store s' !! sid = Some t'
        ∧ driver t' = driver t
        ∧ text (session t') = text (session t)
        ∧ done (session t') = done (session t)
        ∧ error (session t') = error (session t).
Proof.
  intros Hr. pose proof (reachable_wf _ Hr) as Hwf. clear Hr.
  revert s t Hwf. induction trace as [|e trace IH]; intros s t Hwf; simpl.
  - intros [= <-] Ht _. exists t. by repeat split.
  - destruct (step e s) as [s1|] eqn:Hs; [|done]. intros Hrun Ht Hret.
    destruct (step_keeps_other_results e s s1 sid t Hwf Hs Ht (or_intror Hret))
      as (t1 & Ht1 & Hd1 & Hx1 & Hn1 & He1).
    assert (returned t1 = true) as Hret1 by (unfold returned in *; by rewrite Hd1).
    destruct (IH s1 t1 (step_wf _ _ _ Hs Hwf) Hrun Ht1 Hret1)
      as (t' & Ht' & Hd & Hx & Hn & He).
    exists t'. split; [done|]. repeat split; congruence.
Qed.

Lemma returned_session_is_final_witness :
  reachable (after Sample.rate_limited)
  ∧ run [Sample.ask 1200 "K1" 7; Sample.ask 1300 "K1" 8] (after Sample.rate_limited)
    = Some (after (Sample.rate_limited
                   ++ [Sample.ask 1200 "K1" 7; Sample.ask 1300 "K1" 8]))
  ∧ store (after Sample.rate_limited) !! 0%nat = Some Sample.rate_limited_task
  ∧ returned Sample.rate_limited_task = true
  ∧ ∃ t', store (after (Sample.rate_limited
                        ++ [Sample.ask 1200 "K1" 7; Sample.ask 1300 "K1" 8])) !! 0%nat
          = Some t'
          ∧ text (session t') = "ab"%string.
Proof.
  assert (reachable (after Sample.rate_limited)) as Hr
    by (exists Sample.rate_limited; vm_compute; reflexivity).
  split_and!; [exact Hr|vm_compute; reflexivity..|].
  destruct (returned_session_is_final (after Sample.rate_limited)
              [Sample.ask 1200 "K1" 7; Sample.ask 1300 "K1" 8]
              (after (Sample.rate_limited
                      ++ [Sample.ask 1200 "K1" 7; Sample.ask 1300 "K1" 8]))
              0 Sample.rate_limited_task Hr
              ltac:(vm_compute; reflexivity) ltac:(vm_compute; reflexivity)
              ltac:(vm_compute; reflexivity))
    as (t' & Ht' & _ & Hx & _).
  exists t'. split; [exact Ht'|exact Hx].
Defined.

(** X18.  The results of a session are written by its own driver only.  An
    event that is not a resumption of the driver of a session -- a call of
    the host, a token firing, the resumption of another driver -- leaves
    the text, [done], [error] and the suspension point of that session as
    they are. *)
Theorem results_written_by_own_driver_only
    (e : Event) (s s' : Provider) (sid : nat) (t : Task) :
  reachable s → step e s = Some s' → store s !! sid = Some t →
  driver_of_event e ≠ Some sid →
  ∃ t', store s' !! sid = Some t'
        ∧ driver t' = driver t
        ∧ text (session t') = text (session t)
        ∧ done (session t') = done (session t)
        ∧ error (session t') = error (session t).
Proof.
  intros Hr Hs Ht Hne.
  exact (step_keeps_other_results e s s' sid t (reachable_wf _ Hr) Hs Ht (or_introl Hne)).
Qed.

Lemma results_written_by_own_driver_only_witness :
  reachable (after Sample.streaming)
  ∧ step (TokenCancelled 0) (after Sample.streaming)
    = Some (after Sample.cancelled_streaming)
  ∧ store (after Sample.streaming) !! 0%nat = Some Sample.streaming_task
  ∧ ∃ t', store (after Sample.cancelled_streaming) !! 0%nat = Some t'
          ∧ text (session t') = text (session Sample.streaming_task).
Proof.
  assert (reachable (after Sample.streaming)) as Hr by (exists Sample.streaming; vm_compute; reflexivity).
  assert (driver_of_event (TokenCancelled 0) ≠ Some 0%nat) as Hne by discriminate.
  split_and!; [exact Hr|vm_compute; reflexivity..|].
  destruct (results_written_by_own_driver_only (TokenCancelled 0)
              (after Sample.streaming) (after Sample.cancelled_streaming)
              0 Sample.streaming_task Hr
              ltac:(vm_compute; reflexivity) ltac:(vm_compute; reflexivity) Hne)
    as (t' & Ht' & _ & Hx & _).
  exists t'. split; [exact Ht'|exact Hx].
Defined.

(** ** Remote requests *)

Lemma step_dispatch_ledger e s s' :
  wf s → step e s = Some s' → dispatch_ledger s → dispatch_ledger s'.
Proof.
  intros Hwf Hs (Hnd & Hin & Hst). destruct (event_kind e) as [Hhost|[sid0 Hdrv]].
  - destruct (host_step_frame _ _ _ Hhost Hwf Hs) as [[Hold Hnew] Hd].
    unfold dispatch_ledger. rewrite Hd. split_and!; [done| |].
    + intros sid Hsid. destruct (Hin _ Hsid) as [t Ht].
      destruct (Hold _ _ Ht) as (t' & Ht' & _). eauto.
    + intros sid t' Ht'. destruct (store s !! sid) as [t|] eqn:Ht.
      * destruct (Hold _ _ Ht) as (t'' & Ht'' & Hsame).
        assert (t'' = t') as -> by congruence.
        rewrite (same_results_request_issued _ _ Hsame). by apply Hst.
      * rewrite (Hnew _ _ Ht Ht'). intros Hsid. destruct (Hin _ Hsid) as [t0 Ht0].
        congruence.
  - destruct (driver_step_precise _ _ _ _ Hdrv Hs)
      as (t0 & t0' & Ht0 & Hret & _ & Hstore & Hdisp).
    pose proof (lookup_lt_Some _ _ _ Ht0) as Hlt.
    pose proof (Hst _ _ Ht0) as Hst0.
    unfold dispatch_ledger. rewrite Hstore.
    destruct Hdisp as [[Hd Hsame]|(now & Hd & Hf0 & Hf0')]; rewrite Hd.
    + split_and!; [done| |].
      * intros sid Hsid. destruct (decide (sid = sid0)) as [->|Hne].
        -- rewrite list_lookup_insert_eq by done. eauto.
        -- rewrite list_lookup_insert_ne by done. eauto.
      * intros sid t' Ht'. destruct (decide (sid = sid0)) as [->|Hne].
        -- rewrite list_lookup_insert_eq in Ht' by done. injection Ht' as <-.
           destruct (request_issued t0') as [b|] eqn:Hb; [|done].
           by rewrite (Hsame _ eq_refl) in Hst0.
        -- rewrite list_lookup_insert_ne in Ht' by done. by apply Hst.
    + rewrite Hf0 in Hst0. rewrite fmap_app. simpl. split_and!.
      * apply NoDup_app. split_and!; [done| |apply NoDup_singleton].
        intros x Hx ->%list_elem_of_singleton. done.
      * intros sid [Hsid| ->%list_elem_of_singleton]%elem_of_app.
        -- destruct (decide (sid = sid0)) as [->|Hne]; [done|].
           rewrite list_lookup_insert_ne by done. eauto.
        -- rewrite list_lookup_insert_eq by done. eauto.
      * intros sid t' Ht'. destruct (decide (sid = sid0)) as [->|Hne].
        -- rewrite list_lookup_insert_eq in Ht' by done. injection Ht' as <-.
           rewrite Hf0'. apply elem_of_app. right. by apply list_elem_of_singleton.
        -- rewrite list_lookup_insert_ne in Ht' by done.
           pose proof (Hst _ _ Ht') as Hst'.
           destruct (request_issued t') as [[|]|]; [|intros Hsid|done].
           ++ apply elem_of_app. by left.
           ++ apply elem_of_app in Hsid as [Hsid| ->%list_elem_of_singleton]; done.
Qed.

Lemma reachable_dispatch_ledger s : reachable s → dispatch_ledger s.
Proof.
  intros [trace Hrun].
  assert (∀ s0, wf s0 → dispatch_ledger s0 → run trace s0 = Some s → dispatch_ledger s)
    as Hgen.
  { clear Hrun. induction trace as [|e trace IH]; intros s0 Hwf Hl; simpl.
    - by intros [= <-].
    - destruct (step e s0) as [s1|] eqn:Hs; [|done].
      eauto using step_wf, step_dispatch_ledger. }
  apply (Hgen new_provider); [apply new_provider_wf| |done].
  split_and!; [apply NoDup_nil_2| |done].
  intros sid Hin. by apply elem_of_nil in Hin.
Qed.

(** X19.  Every session issues at most one remote request.  In every
    reachable state no session occurs twice among the calls of [fetchOne] on
    record.  A session whose driver waits in the throttle or for the
    endpoint, or has returned after the throttle because its token had
    fired, has none on record; a session whose driver is in [fetchOne], or
    has returned with a response of [fetchOne], has exactly one.  (A driver
    that left through the [catch] block may have raised before or after the
    call.) *)
Theorem one_remote_request_per_session (s : Provider) (sid : nat) (t : Task) :
  reachable s → store s !! sid = Some t →
  NoDup (dispatches s).*1
  ∧ match driver t with
    | AwaitThrottleTimer _ | AwaitThrottleReturn | AwaitEndpoint
    | Returned ExitTokenFired => sid ∉ (dispatches s).*1
    | AwaitFetch _ _ | Returned ExitSuccess | Returned ExitCanceled
    | Returned (ExitFailed _) => sid ∈ (dispatches s).*1
    | Returned (ExitCaught _ _) => True
    end.
Proof.
  intros Hr Ht. destruct (reachable_dispatch_ledger s Hr) as (Hnd & _ & Hst).
  split; [done|]. specialize (Hst _ _ Ht). unfold request_issued in Hst.
  by destruct (driver t) as [| | | |[]].
Qed.

Lemma one_remote_request_per_session_witness :
  reachable (after Sample.burst)
  ∧ store (after Sample.burst) !! 1%nat = Some Sample.burst_task
  ∧ NoDup (dispatches (after Sample.burst)).*1
  ∧ 1%nat ∈ (dispatches (after Sample.burst)).*1.
Proof.
  assert (reachable (after Sample.burst)) as Hr
    by (exists Sample.burst; vm_compute; reflexivity).
  split_and!; [exact Hr|vm_compute; reflexivity|..].
  - exact (proj1 (one_remote_request_per_session (after Sample.burst) 1
                    Sample.burst_task Hr ltac:(vm_compute; reflexivity))).
  - exact (proj2 (one_remote_request_per_session (after Sample.burst) 1
                    Sample.burst_task Hr ltac:(vm_compute; reflexivity))).
Defined.

(** ** Change notifications *)

Lemma driver_finally_triggers sid how s t :
  store s !! sid = Some t →
  didChangeTriggers (driver_finally sid how s)
  = (didChangeTriggers s + (if Js.truthy (error (session t)) then 1 else 0))%nat
  ∧ store (driver_finally sid how s) !! sid
    = Some (set_driver (Returned how) (on_cancellation cts_dispose t)).
Proof.
  intros Ht. pose proof (lookup_lt_Some _ _ _ Ht) as Hlt.
  unfold driver_finally. rewrite Ht.
  destruct (Js.truthy (error (session t))); simpl;
    rewrite list_lookup_insert_eq by done; split; (done || lia).
Qed.

(** X20.  No result is written silently.  Whenever a resumption of a driver
    changes the text of its session, or leaves it with a non-empty error,
    the change notification of the provider has been scheduled by then. *)
Theorem result_change_is_notified
    (e : Event) (sid : nat) (s s' : Provider) (t t' : Task) :
  reachable s →
  driver_of_event e = Some sid → step e s = Some s' →
  store s !! sid = Some t → store s' !! sid = Some t' →
  text (session t') ≠ text (session t) ∨ Js.truthy (error (session t')) = true →
  (didChangeTriggers s < didChangeTriggers s')%nat.
Proof.
  intros Hr He Hs Ht Ht' Hchange. pose proof (lookup_lt_Some _ _ _ Ht) as Hlt.
  pose proof (wf_consistent _ _ (reachable_wf _ Hr) _ _ Ht) as Hc.
  unfold session_consistent in Hc.
  destruct e as [| | | |now sid0|now sid0|now sid0|sid0 deltaText|sid0 response
                |sid0 message];
    try discriminate; injection He as ->; unfold step in Hs.
  - unfold driver_throttle_settled in Hs. rewrite Ht in Hs.
    destruct (driver t); try discriminate.
    destruct (raceCancellation_settled _ _ _); [|discriminate]. injection Hs as <-.
    simpl in Ht'. rewrite list_lookup_insert_eq in Ht' by done. injection Ht' as <-.
    simpl in Hchange. destruct Hc as (_ & _ & Herr). rewrite Herr in Hchange.
    by destruct Hchange.
  - unfold driver_resumed in Hs. rewrite Ht in Hs.
    destruct (driver t); try discriminate. destruct Hc as (_ & _ & Herr).
    destruct (token_fired t); injection Hs as <-.
    + destruct (driver_finally_triggers sid ExitTokenFired s t Ht) as [_ Hst].
      rewrite Hst in Ht'. injection Ht' as <-. simpl in Hchange.
      rewrite Herr in Hchange. by destruct Hchange.
    + simpl in Ht'. rewrite list_lookup_insert_eq in Ht' by done. injection Ht' as <-.
      simpl in Hchange. rewrite Herr in Hchange. by destruct Hchange.
  - unfold driver_endpoint_resolved in Hs. rewrite Ht in Hs.
    destruct (driver t); try discriminate. destruct Hc as (_ & _ & Herr).
    injection Hs as <-.
    simpl in Ht'. rewrite list_lookup_insert_eq in Ht' by done. injection Ht' as <-.
    simpl in Hchange. rewrite Herr in Hchange. by destruct Hchange.
  - unfold finishedCb in Hs. rewrite Ht in Hs.
    destruct (driver t) as [| | |cumulative [|]|]; try discriminate.
    destruct Hc as (_ & _ & Herr).
    destruct (token_fired t); [|destruct (Js.truthy_string deltaText)];
      injection Hs as <-; simpl in Ht';
      rewrite list_lookup_insert_eq in Ht' by done; injection Ht' as <-;
      simpl in Hchange; rewrite ?Herr in Hchange; simpl; try lia;
      by destruct Hchange.
  - unfold driver_resolved in Hs. rewrite Ht in Hs.
    destruct (driver t); try discriminate. destruct Hc as (_ & _ & Herr).
    destruct response as [value| |reason].
    + destruct (Js.truthy_string (text (session t))) eqn:Htext; injection Hs as <-.
      * destruct (driver_finally_triggers sid ExitSuccess
                    (set_store (alter (on_session (set_done true)) sid (store s)) s)
                    (on_session (set_done true) t)) as [_ Hst].
        { simpl. by rewrite list_lookup_alter_eq, Ht. }
        rewrite Hst in Ht'. injection Ht' as <-. simpl in Hchange.
        rewrite Herr in Hchange. by destruct Hchange.
      * destruct (driver_finally_triggers sid ExitSuccess
                    (set_store
                       (alter (on_session (set_done true)) sid
                          (<[sid := on_session (set_text value) t]> (store s)))
                       (_scheduleDidChange
                          (set_store (<[sid := on_session (set_text value) t]> (store s)) s)))
                    (on_session (set_done true) (on_session (set_text value) t)))
          as [Htr _].
        { simpl. by rewrite list_lookup_alter_eq, list_lookup_insert_eq by done. }
        rewrite Htr. simpl. lia.
    + injection Hs as <-.
      destruct (driver_finally_triggers sid ExitCanceled
                  (set_store (<[sid := on_session (set_error (Some "cancelled"%string)) t]>
                                (store s)) s)
                  (on_session (set_error (Some "cancelled"%string)) t)) as [Htr _].
      { simpl. by rewrite list_lookup_insert_eq by done. }
      rewrite Htr. simpl. lia.
    + injection Hs as <-.
      destruct (driver_finally_triggers sid (ExitFailed reason)
                  (set_store (<[sid := on_session (set_error (Some reason)) t]> (store s)) s)
                  (on_session (set_error (Some reason)) t)) as [Htr Hst].
      { simpl. by rewrite list_lookup_insert_eq by done. }
      rewrite Htr. rewrite Hst in Ht'. injection Ht' as <-. simpl in *.
      destruct Hchange as [Hx | ->]; [done|lia].
  - unfold driver_caught in Hs. rewrite Ht in Hs.
    assert (error (session t) = None) as Herr
      by (destruct (driver t); (tauto || discriminate)).
    assert (Some (if token_fired t
                  then driver_finally sid (ExitCaught message true) s
                  else driver_finally sid (ExitCaught message false)
                         (set_store (<[sid := on_session (set_error (Some message)) t]>
                                       (store s)) s)) = Some s') as Hs'
      by (destruct (driver t); try discriminate; by destruct (token_fired t)).
    clear Hs. rename Hs' into Hs.
    destruct (token_fired t); injection Hs as <-.
    + destruct (driver_finally_triggers sid (ExitCaught message true) s t Ht)
        as [_ Hst].
      rewrite Hst in Ht'. injection Ht' as <-. simpl in Hchange.
      rewrite Herr in Hchange. by destruct Hchange.
    + destruct (driver_finally_triggers sid (ExitCaught message false)
                  (set_store (<[sid := on_session (set_error (Some message)) t]> (store s)) s)
                  (on_session (set_error (Some message)) t)) as [Htr Hst].
      { simpl. by rewrite list_lookup_insert_eq by done. }
      rewrite Htr. rewrite Hst in Ht'. injection Ht' as <-. simpl in *.
      destruct Hchange as [Hx | ->]; [done|lia].
Qed.

Lemma result_change_is_notified_witness :
  reachable (after Sample.dispatched)
  ∧ step (Delta 0 "ab") (after Sample.dispatched) = Some (after Sample.streaming)
  ∧ store (after Sample.dispatched) !! 0%nat = Some Sample.dispatched_task
  ∧ store (after Sample.streaming) !! 0%nat = Some Sample.streaming_task
  ∧ text (session Sample.streaming_task) ≠ text (session Sample.dispatched_task)
  ∧ (didChangeTriggers (after Sample.dispatched)
     < didChangeTriggers (after Sample.streaming))%nat.
Proof.
  assert (reachable (after Sample.dispatched)) as Hr
    by (exists Sample.dispatched; vm_compute; reflexivity).
  assert (text (session Sample.streaming_task) ≠ text (session Sample.dispatched_task))
    as Hx by (vm_compute; discriminate).
  split_and!; [exact Hr|vm_compute; reflexivity..|exact Hx|].
  exact (result_change_is_notified (Delta 0 "ab") 0 (after Sample.dispatched)
           (after Sample.streaming) Sample.dispatched_task Sample.streaming_task
           Hr ltac:(reflexivity) ltac:(vm_compute; reflexivity)
           ltac:(vm_compute; reflexivity) ltac:(vm_compute; reflexivity)
           (or_introl Hx)).
Defined.
